(** * Editable product table (src/demo.tsx): row store and editable cell

    A shallow embedding of the row-store handlers of [App]
    ([handleDelete], [handleAdd], [handleSave]) and of the commit path of
    [EditableCell] ([toggleEdit], [save]), followed by the properties of
    the specification that concern them.

    Modelling decisions.
    - A JavaScript object is a finite map from property names to values;
      an absent property reads as [undefined], which is [None] here.
    - A JavaScript number is modelled by the integer it holds.  The only
      arithmetic in the source is [count + 1] on a counter that starts at
      2, and it is rounded as a double ([add_one]); prices and quantities
      are only stored and copied.
    - An array is a [list].  [Array.prototype] functions are given with
      their ECMAScript behaviour, including negative and out-of-range
      indices. *)

From stdpp Require Import gmap strings list fin_maps.

Local Open Scope string_scope.
Local Open Scope list_scope.
Local Open Scope Z_scope.

(** ** Values and objects *)

Inductive value :=
  | VStr (s : string)
  | VNum (n : Z)
  | VBool (b : bool).

#[global] Instance value_eq_dec : EqDecision value.
Proof. solve_decision. Defined.

(** [a === b] on property reads ([None] is [undefined]). *)
Definition strict_eq (a b : option value) : bool := bool_decide (a = b).

(** [{ ...a, ...b }]: the properties of [b] override those of [a];
    spreading [undefined] contributes nothing. *)
Definition spread (a : option (gmap string value)) (b : gmap string value)
  : gmap string value :=
  b ∪ default ∅ a.

(** [item.key] *)
Definition key_of (item : gmap string value) : option value := item !! "key".

(** ** Array primitives *)

(** [arr.findIndex(p)]: index of the first element satisfying [p], or -1. *)
Fixpoint findIndex {A} (p : A → bool) (arr : list A) : Z :=
  match arr with
  | [] => -1
  | x :: rest =>
      if p x then 0
      else let i := findIndex p rest in
           if i <? 0 then -1 else i + 1
  end.

(** [arr[i]] for an integer index: [undefined] outside the array. *)
Definition at_index {A} (arr : list A) (i : Z) : option A :=
  if i <? 0 then None else arr !! Z.to_nat i.

(** [arr.splice(start, deleteCount, ...items)], the array after the call.
    A negative [start] counts from the end and is clamped at 0; a [start]
    past the end is clamped at the length; [deleteCount] is clamped to
    what is left after [start]. *)
Definition splice {A} (start deleteCount : Z) (items arr : list A) : list A :=
  let len := Z.of_nat (length arr) in
  let actualStart :=
    if start <? 0 then Z.max (len + start) 0 else Z.min start len in
  let actualDeleteCount := Z.min (Z.max deleteCount 0) (len - actualStart) in
  take (Z.to_nat actualStart) arr ++ items
    ++ drop (Z.to_nat (actualStart + actualDeleteCount)) arr.

(** ** Numbers *)

(** 2^53 and 2^54: up to 2^53 in magnitude every integer is a double;
    from there to 2^54 only the even ones are. *)
Definition two53 : Z := 9007199254740992.
Definition two54 : Z := 18014398509481984.

(** [n + 1] for an integer-valued double [n].  The sum is exact while it
    stays within 2^53 in magnitude.  Beyond that it falls between two
    doubles and is rounded to the nearest one, a tie going to the even
    significand: below 2^54 the neighbours are [n] and [n + 2]; from 2^54
    on [n] is the nearest.  In particular 2^53 + 1 is 2^53. *)
Definition add_one (n : Z) : Z :=
  if Z.abs (n + 1) <=? two53 then n + 1
  else if Z.abs n <? two54 then (if Z.even (n / 2) then n else n + 2)
  else n.

(** ** Row store: the sequence computed by each handler *)

(** [dataSource.filter((item) => item.key !== key)] *)
Definition handleDelete (key : value) (dataSource : list (gmap string value))
  : list (gmap string value) :=
  filter (λ item, key_of item ≠ Some key) dataSource.

(** The object literal of [handleAdd]. *)
Definition newRow (count : Z) : gmap string value :=
  {[ "key" := VNum count; "name" := VStr "Section 10.7 (2)" ]}.

(** [[...dataSource, newData]] and [count + 1]. *)
Definition handleAdd (dataSource : list (gmap string value)) (count : Z)
  : list (gmap string value) * Z :=
  (dataSource ++ [newRow count], add_one count).

(** [handleSave]: copy, [findIndex], read [newData[index]], [splice]. *)
Definition handleSave (row : gmap string value)
    (dataSource : list (gmap string value)) : list (gmap string value) :=
  let newData := dataSource in
  let index := findIndex (λ item, strict_eq (key_of row) (key_of item)) newData in
  let item := at_index newData index in
  splice index 1 [spread item row] newData.

(** The initial state of [App]. *)
Definition initialDataSource : list (gmap string value) :=
  [ {[ "key" := VStr "0"; "name" := VStr "Instrument 88B";
       "price" := VNum 100; "discount" := VNum 0;
       "quantity" := VNum 1; "assignee" := VBool true ]};
    {[ "key" := VStr "1"; "name" := VStr "Critical Stage Inspections";
       "price" := VNum 100; "quantity" := VNum 3;
       "discount" := VNum 0; "assignee" := VBool false ]} ].

Definition initialCount : Z := 2.

(** The fields of [DataType]. *)
Definition DataType_fields : list string :=
  ["key"; "name"; "price"; "quantity"; "discount"; "assignee"].

Definition has_all_fields (r : gmap string value) : Prop :=
  Forall (λ f, is_Some (r !! f)) DataType_fields.

#[global] Instance has_all_fields_dec r : Decision (has_all_fields r).
Proof. unfold has_all_fields. apply _. Defined.

(** The keys of a row sequence, in order. *)
Definition keys (ds : list (gmap string value)) : list (option value) :=
  key_of <$> ds.

(** Numeric keys of the sequence are below the counter. *)
Definition counter_above (ds : list (gmap string value)) (count : Z) : Prop :=
  ∀ n, Some (VNum n) ∈ keys ds → n < count.

(** States of the row store that the user interface can reach: rows are
    added by the button, deleted by key, and saved from a cell, which
    passes a record carrying the key of a row of the sequence. *)
Inductive reachable : list (gmap string value) → Z → Prop :=
  | reach_initial : reachable initialDataSource initialCount
  | reach_add ds count :
      reachable ds count →
      reachable (handleAdd ds count).1 (handleAdd ds count).2
  | reach_delete key ds count :
      reachable ds count → reachable (handleDelete key ds) count
  | reach_save row ds count :
      reachable ds count → key_of row ∈ keys ds →
      reachable (handleSave row ds) count.

(** ** [App] with arrays held by reference

    [dataSource] is a state variable holding a reference to an array.
    The handlers build their result in a newly allocated array and pass
    it to [setDataSource]; [splice] is the only call that writes into an
    existing array.  A handler fails only on a dangling reference. *)

Module App.
Record state := State {
  arrays : gmap positive (list (gmap string value));
  dataSource : positive;
  count : Z
}.

#[global] Instance state_eq_dec : EqDecision state.
Proof. solve_decision. Defined.

(** A new array with contents [arr]. *)
Definition alloc (arr : list (gmap string value))
    (h : gmap positive (list (gmap string value)))
  : positive * gmap positive (list (gmap string value)) :=
  let l := fresh (dom h) in (l, <[l := arr]> h).

Definition handleDelete (key : value) (st : state) : option state :=
  ds ← arrays st !! dataSource st;
  let '(newData, h) :=
    alloc (filter (λ item, key_of item ≠ Some key) ds) (arrays st) in
  Some (State h newData (count st)).

Definition handleAdd (st : state) : option state :=
  ds ← arrays st !! dataSource st;
  let newData := newRow (count st) in
  let '(arr, h) := alloc (ds ++ [newData]) (arrays st) in
  Some (State h arr (add_one (count st))).

Definition handleSave (row : gmap string value) (st : state) : option state :=
  ds ← arrays st !! dataSource st;
  let '(newData, h) := alloc ds (arrays st) in
  arr ← h !! newData;
  let index :=
    findIndex (λ item, strict_eq (key_of row) (key_of item)) arr in
  let item := at_index arr index in
  let h' := <[newData := splice index 1 [spread item row] arr]> h in
  Some (State h' newData (count st)).

(** The row sequence a state shows. *)
Definition rows (st : state) : option (list (gmap string value)) :=
  arrays st !! dataSource st.

Definition initial : state :=
  State {[ 1%positive := initialDataSource ]} 1%positive initialCount.

(** Going from [st] to [st'] left every array of [st] as it was, and
    [dataSource] now refers to an array that [st] did not have. *)
Definition keeps_old (st st' : state) : Prop :=
  (dataSource st' ∉ dom (arrays st))
  ∧ ∀ l arr, arrays st !! l = Some arr → arrays st' !! l = Some arr.
End App.

(** A state of [App] after adding a row and deleting it again: the
    sequence is the initial one, the counter is 3. *)
Definition after_add_delete : option App.state :=
  App.handleAdd App.initial ≫= App.handleDelete (VNum 2).

(** ** [EditableCell]: the commit path

    A handler of the cell runs against the live component state (the
    [world]) with the values its closure captured at render time (the
    [closure]).  Calls that matter to the row store and to the edit state
    are recorded, in the order in which they are made, in [trace]. *)

Module Cell.
Inductive event :=
  | SetEditing (b : bool)
  | SetFieldsValue (name : string) (v : option value)
  | HandleSave (row : gmap string value)
  | ConsoleLog (msg : string) (errInfo : list string).

#[global] Instance event_eq_dec : EqDecision event.
Proof. solve_decision. Defined.

Record world := World {
  editing : bool;
  fields : gmap string value;
  dataSource : list (gmap string value);
  trace : list event
}.

Record closure := Closure {
  c_editing : bool;
  c_dataIndex : string;
  c_record : gmap string value;
  c_dataSource : list (gmap string value)
}.

(** What the cell's closures capture when rendered in world [w]. *)
Definition render (dataIndex : string) (record : gmap string value)
    (w : world) : closure :=
  Closure (editing w) dataIndex record (dataSource w).

(** Computations on the world that return or throw. *)
Definition M (A : Type) : Type := world → (A + list string) * world.

#[global] Instance M_ret : MRet M := λ A a w, (inl a, w).
#[global] Instance M_bind : MBind M := λ A B f m w,
  match m w with
  | (inl a, w') => f a w'
  | (inr e, w') => (inr e, w')
  end.

Definition try_catch {A} (body : M A) (handler : list string → M A) : M A :=
  λ w, match body w with
       | (inl a, w') => (inl a, w')
       | (inr e, w') => handler e w'
       end.

Definition emit (e : event) (w : world) : world :=
  World (editing w) (fields w) (dataSource w) (trace w ++ [e]).

Definition setEditing (b : bool) : M unit := λ w,
  (inl (), emit (SetEditing b)
             (World b (fields w) (dataSource w) (trace w))).

Definition setFieldsValue (name : string) (v : option value) : M unit := λ w,
  (inl (), emit (SetFieldsValue name v)
             (World (editing w) (partial_alter (λ _, v) name (fields w))
                (dataSource w) (trace w))).

Definition console_log (msg : string) (errInfo : list string) : M unit := λ w,
  (inl (), emit (ConsoleLog msg errInfo) w).

(** The [handleSave] prop: [App]'s handler closed over the rendered
    [dataSource]; it ends in [setDataSource(newData)]. *)
Definition call_handleSave (c : closure) (row : gmap string value) : M unit :=
  λ w, (inl (), emit (HandleSave row)
                  (World (editing w) (fields w)
                     (handleSave row (c_dataSource c)) (trace w))).

Section with_form.
(** [form.validateFields()] belongs to the form library: given the
    field store it resolves with the validated values or rejects with
    the error information. *)
Variable validate : gmap string value → gmap string value + list string.

Definition validateFields : M (gmap string value) := λ w,
  (validate (fields w), w).

Definition toggleEdit (c : closure) : M unit :=
  setEditing (negb (c_editing c));;
  setFieldsValue (c_dataIndex c) (c_record c !! c_dataIndex c).

Definition save (c : closure) : M unit :=
  try_catch
    (values ← validateFields;
     toggleEdit c;;
     call_handleSave c (spread (Some (c_record c)) values))
    (λ errInfo, console_log "Save failed:" errInfo).
End with_form.

(** Modelled from the spec: the form library's validation of one
    registered field under the single [required] rule of the cell: the
    value must be present (an empty input is not). *)
Definition required_rule (name : string) (store : gmap string value)
  : gmap string value + list string :=
  match store !! name with
  | None => inr [name]
  | Some v => if decide (v = VStr EmptyString) then inr [name] else inl {[ name := v ]}
  end.

Definition is_HandleSave (e : event) : bool :=
  match e with HandleSave _ => true | _ => false end.

Definition is_SetEditing (b : bool) (e : event) : bool :=
  match e with SetEditing b' => bool_decide (b = b') | _ => false end.

(** An event satisfying [p] is recorded before one satisfying [q]. *)
Definition happens_before (p q : event → bool) (tr : list event) : Prop :=
  ∃ (i j : nat) x y,
    tr !! i = Some x ∧ tr !! j = Some y ∧ p x = true ∧ q y = true ∧ (i < j)%nat.
End Cell.

(** Scenario B: the Quantity cell of the row with key ["0"], in edit mode,
    with the text typed into its input. *)
Definition quantity_cell_world (typed : string) : Cell.world :=
  Cell.World true {[ "quantity" := VStr typed ]} initialDataSource [].

Definition quantity_cell (typed : string) : Cell.closure :=
  Cell.render "quantity" (initialDataSource !!! 0%nat)
    (quantity_cell_world typed).

(** ** Sequences of row-store operations *)

(** [handleAdd] called [n] times, each call seeing the state the previous
    one left. *)
Fixpoint addN (n : nat) (ds : list (gmap string value)) (count : Z)
  : list (gmap string value) * Z :=
  match n with
  | O => (ds, count)
  | S n' => addN n' (handleAdd ds count).1 (handleAdd ds count).2
  end.

Inductive op :=
  | OpAdd
  | OpDelete (key : value)
  | OpSave (row : gmap string value).

(** One handler call on the sequence and the counter. *)
Definition apply_op (o : op) (s : list (gmap string value) * Z)
  : list (gmap string value) * Z :=
  match o with
  | OpAdd => handleAdd s.1 s.2
  | OpDelete key => (handleDelete key s.1, s.2)
  | OpSave row => (handleSave row s.1, s.2)
  end.

Definition apply_ops (ops : list op) (s : list (gmap string value) * Z)
  : list (gmap string value) * Z :=
  foldl (λ s o, apply_op o s) s ops.

(** The same on the heap of arrays. *)
Definition App_step (o : op) (st : App.state) : option App.state :=
  match o with
  | OpAdd => App.handleAdd st
  | OpDelete key => App.handleDelete key st
  | OpSave row => App.handleSave row st
  end.

Fixpoint App_run (ops : list op) (st : App.state) : option App.state :=
  match ops with
  | [] => Some st
  | o :: rest => App_step o st ≫= App_run rest
  end.

(** ** Column configuration of [App] *)

Module Table.
(** An entry of [defaultColumns]; [editable] may be left out. *)
Record column := Column {
  title : string;
  dataIndex : string;
  width : option string;
  editable : option bool;
  custom_render : bool
}.

(** What [onCell] hands to the cell (together with [handleSave]). *)
Record cellProps := CellProps {
  p_record : gmap string value;
  p_editable : option bool;
  p_dataIndex : string;
  p_title : string
}.

(** An entry of [columns]: the entry of [defaultColumns] it spreads, and
    [onCell] if it was given one. *)
Record mapped := Mapped {
  col : column;
  onCell : option (gmap string value → cellProps)
}.

(** [!col.editable]: a missing flag counts as not editable. *)
Definition not_editable (c : column) : bool :=
  negb (default false (editable c)).

(** [defaultColumns.map((col) => ...)] *)
Definition columns (cols : list column) : list mapped :=
  (λ c, if not_editable c then Mapped c None
        else Mapped c
               (Some (λ record,
                  CellProps record (editable c) (dataIndex c) (title c))))
  <$> cols.

Definition defaultColumns : list column :=
  [ Column "Product" "name" (Some "30%") (Some false) true;
    Column "Price" "price" None None false;
    Column "Discount %" "discount" None None false;
    Column "Quantity" "quantity" None None false;
    Column "Assigned to client" "assignee" None None true ].

(** The [editable] prop a body cell of column [m] receives for [record]:
    the table passes a cell what [onCell] returns, and nothing when the
    column has no [onCell]. *)
Definition cell_editable (m : mapped) (record : gmap string value) : bool :=
  match onCell m with
  | Some f => default false (p_editable (f record))
  | None => false
  end.
End Table.

(** ** [EditableCell]: what it renders and which handlers it binds *)

Module UI.
(** [childNode]: the children as given, the form item with the input, or
    the clickable wrapper around the children. *)
Inductive node :=
  | Children
  | FormItemInput (name : string) (message : string)
  | ValueWrap.

Definition childNode (editable editing : bool) (dataIndex title : string)
  : node :=
  if editable then
    if editing then FormItemInput dataIndex (String.append title " is required.")
    else ValueWrap
  else Children.

(** Events on the rendered cell.  [Typing s] is the user changing the
    input's text to [s]; the form item stores the text under its name. *)
Inductive event :=
  | Click
  | PressEnter
  | Blur
  | Typing (s : string).

Section with_form.
Variable validate : gmap string value → gmap string value + list string.

(** The handler the rendered node binds to the event, if any:
    [onClick={toggleEdit}] on the wrapper, [onPressEnter={save}] and
    [onBlur={save}] on the input. *)
Definition handle (editable : bool) (title : string) (c : Cell.closure)
    (ev : event) : Cell.M unit :=
  match childNode editable (Cell.c_editing c) (Cell.c_dataIndex c) title, ev with
  | ValueWrap, Click => Cell.toggleEdit c
  | FormItemInput _ _, PressEnter => Cell.save validate c
  | FormItemInput _ _, Blur => Cell.save validate c
  | FormItemInput name _, Typing s =>
      λ w, (inl (), Cell.World (Cell.editing w)
                      (<[name := VStr s]> (Cell.fields w))
                      (Cell.dataSource w) (Cell.trace w))
  | _, _ => mret ()
  end.

(** The cell of row [i]: before each event it is rendered from the
    current state; once the row is gone so is the cell. *)
Fixpoint interact (editable : bool) (dataIndex title : string) (i : nat)
    (evs : list event) (w : Cell.world) : Cell.world :=
  match evs with
  | [] => w
  | ev :: rest =>
      match Cell.dataSource w !! i with
      | None => w
      | Some record =>
          interact editable dataIndex title i rest
            (handle editable title (Cell.render dataIndex record w) ev w).2
      end
  end.
End with_form.
End UI.

(** ** Validation of a row's form

    [form.validateFields()] belongs to the form library.  The form is the
    one of the row, so the call checks every form item rendered in the
    row at the time: one for each cell of the row that is in edit mode,
    each under the [required] rule.  [mounted] lists their names.  A
    field passes when it holds a value other than the empty text.  If all
    pass the call resolves with the values of the mounted fields,
    otherwise it rejects with the names of the fields that fail. *)

Definition field_ok (store : gmap string value) (name : string) : bool :=
  match store !! name with
  | Some v => bool_decide (v ≠ VStr EmptyString)
  | None => false
  end.

Definition validate_row (mounted : list string) (store : gmap string value)
  : gmap string value + list string :=
  match filter (λ name, field_ok store name = false) mounted with
  | [] => inl (filter (λ kv, kv.1 ∈ mounted) store)
  | bad => inr bad
  end.

(** Closed decidable goals are settled by evaluation. *)
Ltac by_compute := apply (bool_decide_unpack _); vm_compute; exact I.

(** ** Facts about the array primitives *)

Section array_facts.
Context {A : Type}.
Implicit Types (p : A → bool) (arr : list A) (x y : A).

Lemma findIndex_range p arr :
  -1 ≤ findIndex p arr < Z.of_nat (length arr).
Proof.
  induction arr as [|x rest IH]; simpl; [lia|].
  destruct (p x); [lia|].
  destruct (Z.ltb_spec (findIndex p rest) 0); lia.
Qed.

Lemma findIndex_absent p arr :
  Forall (λ x, p x = false) arr → findIndex p arr = -1.
Proof.
  induction 1 as [|x rest Hx _ IH]; simpl; [done|].
  by rewrite Hx, IH.
Qed.

Lemma findIndex_absent_inv p arr :
  findIndex p arr = -1 → Forall (λ x, p x = false) arr.
Proof.
  induction arr as [|x rest IH]; simpl; [constructor|].
  destruct (p x) eqn:Hx; [lia|].
  pose proof (findIndex_range p rest).
  destruct (Z.ltb_spec (findIndex p rest) 0); [|lia].
  intros _. constructor; [done|]. apply IH. lia.
Qed.

Lemma findIndex_first p arr (i : nat) x :
  arr !! i = Some x → p x = true →
  (∀ (j : nat) y, (j < i)%nat → arr !! j = Some y → p y = false) →
  findIndex p arr = Z.of_nat i.
Proof.
  revert i. induction arr as [|z rest IH]; intros i Hi Hx Hbefore; [done|].
  destruct i as [|i]; simpl in *.
  - simplify_eq. by rewrite Hx.
  - rewrite (Hbefore 0%nat z) by (done || lia).
    rewrite (IH i Hi Hx).
    + destruct (Z.ltb_spec (Z.of_nat i) 0); lia.
    + intros j y Hj Hy. apply (Hbefore (S j) y); [lia|done].
Qed.

Lemma findIndex_found p arr (i : nat) :
  findIndex p arr = Z.of_nat i →
  ∃ x, arr !! i = Some x ∧ p x = true
       ∧ ∀ (j : nat) y, (j < i)%nat → arr !! j = Some y → p y = false.
Proof.
  revert i. induction arr as [|z rest IH]; intros i; simpl; [lia|].
  destruct (p z) eqn:Hz.
  - intros Hi. assert (i = 0%nat) as -> by lia.
    exists z. split_and!; [done..|]. intros; lia.
  - destruct (Z.ltb_spec (findIndex p rest) 0); [lia|].
    intros Hi. destruct i as [|i]; [lia|].
    destruct (IH i) as (x & Hx & Hpx & Hbefore); [lia|].
    exists x. split_and!; [done..|].
    intros [|j] y Hj Hy; simpl in *; [by simplify_eq|].
    apply (Hbefore j y); [lia|done].
Qed.

Lemma at_index_nat arr (i : nat) : at_index arr (Z.of_nat i) = arr !! i.
Proof.
  unfold at_index. destruct (Z.ltb_spec (Z.of_nat i) 0); [lia|].
  by rewrite Nat2Z.id.
Qed.

(** [splice(i, 1, x)] at an index inside the array overwrites slot [i]. *)
Lemma splice_in_range arr (i : nat) x :
  (i < length arr)%nat →
  splice (Z.of_nat i) 1 [x] arr = <[i := x]> arr.
Proof.
  intros Hi. unfold splice.
  replace (Z.of_nat i <? 0) with false by (symmetry; apply Z.ltb_ge; lia).
  rewrite Z.min_l by lia.
  replace (Z.min (Z.max 1 0) (Z.of_nat (length arr) - Z.of_nat i)) with 1 by lia.
  rewrite Nat2Z.id.
  replace (Z.to_nat (Z.of_nat i + 1)) with (S i) by lia.
  revert i Hi. induction arr as [|y rest IH]; intros [|i] Hi; simpl in *;
    try lia; [by rewrite drop_0|].
  f_equal. apply IH. lia.
Qed.

(** [splice(-1, 1, x)] overwrites the last slot of a non-empty array. *)
Lemma splice_minus_one_snoc arr y x :
  splice (-1) 1 [x] (arr ++ [y]) = arr ++ [x].
Proof.
  unfold splice. rewrite length_app. simpl.
  replace (Z.max (Z.of_nat (length arr + 1) + -1) 0)
    with (Z.of_nat (length arr)) by lia.
  replace (Z.min (Z.max 1 0) (Z.of_nat (length arr + 1) - Z.of_nat (length arr)))
    with 1 by lia.
  rewrite Nat2Z.id.
  replace (Z.to_nat (Z.of_nat (length arr) + 1)) with (length (arr ++ [y])).
  2:{ rewrite length_app. simpl. lia. }
  rewrite take_app_length, drop_all. done.
Qed.

(** [splice(-1, 1, x)] on the empty array inserts [x]. *)
Lemma splice_minus_one_nil x : splice (-1) 1 [x] (@nil A) = [x].
Proof. reflexivity. Qed.
End array_facts.

(** ** Facts about the counter *)

Lemma add_one_exact n : -two53 ≤ n + 1 ≤ two53 → add_one n = n + 1.
Proof.
  intros Hn. unfold add_one.
  destruct (Z.leb_spec (Z.abs (n + 1)) two53); [done|lia].
Qed.

Lemma add_one_stuck : add_one two53 = two53.
Proof. reflexivity. Qed.

Lemma add_one_lower n : 0 ≤ n → n ≤ add_one n.
Proof.
  intros Hn. unfold add_one.
  destruct (Z.leb_spec (Z.abs (n + 1)) two53); [lia|].
  destruct (Z.ltb_spec (Z.abs n) two54); [|lia].
  destruct (Z.even (n / 2)); lia.
Qed.

(** Below 2^53 the counter has not been rounded yet. *)
Lemma add_one_below n :
  0 ≤ n → add_one n < two53 → n < two53 ∧ add_one n = n + 1.
Proof.
  intros Hn Hlt. pose proof (add_one_lower n Hn).
  assert (n < two53) by lia. split; [done|].
  apply add_one_exact. unfold two53 in *. lia.
Qed.

(** ** Facts about the row-store handlers *)

Lemma strict_eq_true a b : strict_eq a b = true ↔ a = b.
Proof. unfold strict_eq. apply bool_decide_eq_true. Qed.

Lemma strict_eq_false a b : strict_eq a b = false ↔ a ≠ b.
Proof. unfold strict_eq. apply bool_decide_eq_false. Qed.

(** Reading a property of [{ ...item, ...row }]. *)
Lemma spread_lookup (item row : gmap string value) f :
  spread (Some item) row !! f
  = match row !! f with Some v => Some v | None => item !! f end.
Proof.
  unfold spread. simpl. rewrite lookup_union.
  destruct (row !! f), (item !! f); done.
Qed.

Lemma spread_undefined (row : gmap string value) : spread None row = row.
Proof. unfold spread. simpl. apply (right_id_L ∅ (∪)). Qed.

Lemma spread_key (item row : gmap string value) :
  key_of item = key_of row → key_of (spread (Some item) row) = key_of row.
Proof.
  unfold key_of. intros Hk. rewrite spread_lookup, Hk.
  by destruct (row !! "key").
Qed.

Lemma spread_twice (item row : gmap string value) :
  spread (Some (spread (Some item) row)) row = spread (Some item) row.
Proof.
  unfold spread. simpl.
  by rewrite (assoc_L (∪)), (idemp_L (∪)).
Qed.

Lemma spread_self (row : gmap string value) : spread (Some row) row = row.
Proof. unfold spread. simpl. apply (idemp_L (∪)). Qed.

(** The key is found, first at index [i]: slot [i] is overwritten with the
    merge. *)
Lemma handleSave_found row ds (i : nat) item :
  ds !! i = Some item →
  key_of item = key_of row →
  (∀ (j : nat) other, (j < i)%nat → ds !! j = Some other →
     key_of other ≠ key_of row) →
  handleSave row ds = <[i := spread (Some item) row]> ds.
Proof.
  intros Hi Hk Hbefore. unfold handleSave.
  rewrite (findIndex_first _ ds i item Hi).
  - rewrite at_index_nat, Hi. apply splice_in_range.
    by eapply lookup_lt_Some.
  - by apply strict_eq_true.
  - intros j other Hj Hother. apply strict_eq_false.
    intros Heq. by apply (Hbefore j other Hj Hother).
Qed.

(** The key is not found: [findIndex] gives -1, [newData[-1]] is
    [undefined], and [splice(-1, 1, row)] overwrites the last slot (or
    inserts into an empty array). *)
Lemma handleSave_missing row ds :
  Forall (λ item, key_of item ≠ key_of row) ds →
  handleSave row ds = take (Nat.pred (length ds)) ds ++ [row].
Proof.
  intros Hmiss. unfold handleSave.
  rewrite findIndex_absent.
  2:{ eapply Forall_impl; [exact Hmiss|]. intros item Hne.
      apply strict_eq_false. congruence. }
  change (at_index ds (-1)) with (@None (gmap string value)).
  rewrite spread_undefined.
  clear Hmiss. induction ds as [|y init _] using rev_ind; [done|].
  rewrite splice_minus_one_snoc, length_app. simpl.
  replace (Nat.pred (length init + 1)) with (length init) by lia.
  by rewrite take_app_length.
Qed.

Lemma handleSave_cases row ds :
  (Forall (λ item, key_of item ≠ key_of row) ds
   ∧ handleSave row ds = take (Nat.pred (length ds)) ds ++ [row])
  ∨ (∃ (i : nat) item,
       ds !! i = Some item ∧ key_of item = key_of row
       ∧ (∀ (j : nat) other, (j < i)%nat → ds !! j = Some other →
            key_of other ≠ key_of row)
       ∧ handleSave row ds = <[i := spread (Some item) row]> ds).
Proof.
  set (p := λ item, strict_eq (key_of row) (key_of item)).
  destruct (decide (findIndex p ds = -1)) as [Hm|Hf].
  - left. assert (Forall (λ item, key_of item ≠ key_of row) ds) as Hall.
    { eapply Forall_impl; [by apply findIndex_absent_inv|].
      intros item Hp. apply strict_eq_false in Hp. congruence. }
    split; [done|]. by apply handleSave_missing.
  - right. pose proof (findIndex_range p ds) as Hr.
    destruct (findIndex_found p ds (Z.to_nat (findIndex p ds)))
      as (item & Hi & Hp & Hbefore); [lia|].
    apply strict_eq_true in Hp.
    assert (∀ (j : nat) other, (j < Z.to_nat (findIndex p ds))%nat →
              ds !! j = Some other → key_of other ≠ key_of row) as Hb.
    { intros j other Hj Ho Heq. specialize (Hbefore j other Hj Ho).
      apply strict_eq_false in Hbefore. congruence. }
    exists (Z.to_nat (findIndex p ds)), item. split_and!; [done..|].
    by apply handleSave_found.
Qed.

(** When the key is found the list of keys is left as it was. *)
Lemma handleSave_found_keys row (ds : list (gmap string value)) (i : nat) item :
  ds !! i = Some item → key_of item = key_of row →
  key_of <$> <[i := spread (Some item) row]> ds = key_of <$> ds.
Proof.
  intros Hi Hk. rewrite list_fmap_insert, spread_key by done.
  apply list_insert_id. by rewrite list_lookup_fmap, Hi, <- Hk.
Qed.

Lemma handleDelete_no_match key ds :
  Forall (λ item, key_of item ≠ Some key) ds → handleDelete key ds = ds.
Proof.
  unfold handleDelete. induction 1 as [|item ds Hitem _ IH]; [done|].
  by rewrite filter_cons_True, IH.
Qed.

Lemma handleDelete_all_differ key ds :
  Forall (λ item, key_of item ≠ Some key) (handleDelete key ds).
Proof.
  apply Forall_forall. intros item Hin.
  by apply list_elem_of_filter in Hin as [? _].
Qed.

Lemma handleDelete_greatest key ds l :
  l `sublist_of` ds →
  Forall (λ item, key_of item ≠ Some key) l →
  l `sublist_of` handleDelete key ds.
Proof.
  unfold handleDelete.
  induction 1 as [|x l ds _ IH|x l ds _ IH]; intros Hl.
  - constructor.
  - apply Forall_cons in Hl as [Hx Hl].
    rewrite filter_cons_True by done. apply sublist_skip. by apply IH.
  - rewrite filter_cons. destruct (decide (key_of x ≠ Some key)).
    + apply sublist_cons. by apply IH.
    + by apply IH.
Qed.

(** ** Properties of the row store *)

(** C10.  [handleDelete] keeps, in their order, exactly the records whose
    key differs from the given one: the result is a subsequence of the
    input, none of its records has the key, and it contains every
    subsequence of the input with that property (so every record with the
    key is gone, however many there are, and every other record stays).
    When no key matches the result is the input, and deleting the same
    key a second time changes nothing. *)
Theorem handleDelete_spec (key : value) (ds : list (gmap string value)) :
  handleDelete key ds `sublist_of` ds
  ∧ Forall (λ item, key_of item ≠ Some key) (handleDelete key ds)
  ∧ (∀ l, l `sublist_of` ds →
          Forall (λ item, key_of item ≠ Some key) l →
          l `sublist_of` handleDelete key ds)
  ∧ (Forall (λ item, key_of item ≠ Some key) ds → handleDelete key ds = ds)
  ∧ handleDelete key (handleDelete key ds) = handleDelete key ds.
Proof.
  split_and!.
  - apply sublist_filter.
  - apply handleDelete_all_differ.
  - apply handleDelete_greatest.
  - apply handleDelete_no_match.
  - apply handleDelete_no_match, handleDelete_all_differ.
Qed.

(** C7.  When the key of [row] is the key of exactly one record, at index
    [i], [handleSave] returns a sequence of the same length whose slot [i]
    holds the merge (each field read from [row] if [row] has it and from
    the old record otherwise) and whose other slots are those of the
    input. *)
Theorem handleSave_unique_match (row : gmap string value)
    (ds : list (gmap string value)) (i : nat) (item : gmap string value) :
  ds !! i = Some item →
  key_of item = key_of row →
  (∀ (j : nat) other, j ≠ i → ds !! j = Some other → key_of other ≠ key_of row) →
  length (handleSave row ds) = length ds
  ∧ (∃ merged, handleSave row ds !! i = Some merged
       ∧ ∀ f, merged !! f
              = match row !! f with Some v => Some v | None => item !! f end)
  ∧ (∀ j : nat, j ≠ i → handleSave row ds !! j = ds !! j).
Proof.
  intros Hi Hk Hothers.
  rewrite (handleSave_found row ds i item Hi Hk).
  2:{ intros j other Hj. apply Hothers. lia. }
  split_and!.
  - apply length_insert.
  - exists (spread (Some item) row). split.
    + apply list_lookup_insert_eq. by eapply lookup_lt_Some.
    + apply spread_lookup.
  - intros j Hj. by apply list_lookup_insert_ne.
Qed.

Lemma handleSave_unique_match_witness :
  let row : gmap string value := {[ "key" := VStr "0"; "quantity" := VNum 5 ]} in
  length (handleSave row initialDataSource) = length initialDataSource
  ∧ (∃ merged, handleSave row initialDataSource !! 0%nat = Some merged
       ∧ ∀ f, merged !! f
              = match row !! f with
                | Some v => Some v
                | None => (initialDataSource !!! 0%nat) !! f
                end)
  ∧ (∀ j : nat, j ≠ 0%nat →
       handleSave row initialDataSource !! j = initialDataSource !! j).
Proof.
  intros row.
  apply (handleSave_unique_match row initialDataSource 0
           (initialDataSource !!! 0%nat)).
  - reflexivity.
  - reflexivity.
  - intros [|[|j]] other Hj Hother; [done| |done].
    injection Hother as <-. vm_compute. discriminate.
Defined.

(** Scenario B at the row store: committing quantity 5 for key ["0"]. *)
Example handleSave_scenario_B :
  handleSave {[ "key" := VStr "0"; "quantity" := VNum 5 ]} initialDataSource
  = [ {[ "key" := VStr "0"; "name" := VStr "Instrument 88B";
         "price" := VNum 100; "discount" := VNum 0;
         "quantity" := VNum 5; "assignee" := VBool true ]};
      {[ "key" := VStr "1"; "name" := VStr "Critical Stage Inspections";
         "price" := VNum 100; "quantity" := VNum 3;
         "discount" := VNum 0; "assignee" := VBool false ]} ].
Proof. by_compute. Qed.

(** C8.  Saving the same record twice gives the sequence that saving it
    once gives.  This holds for every record, so in particular for a
    fully specified one. *)
Theorem handleSave_idempotent (row : gmap string value)
    (ds : list (gmap string value)) :
  handleSave row (handleSave row ds) = handleSave row ds.
Proof.
  destruct (handleSave_cases row ds)
    as [[Hmiss ->]|(i & item & Hi & Hk & Hbefore & ->)].
  - set (init := take (Nat.pred (length ds)) ds).
    assert (Forall (λ x, key_of x ≠ key_of row) init) as Hinit.
    { by apply Forall_take. }
    rewrite (handleSave_found row (init ++ [row]) (length init) row).
    + rewrite spread_self. apply list_insert_id.
      by rewrite lookup_app_r, Nat.sub_diag by lia.
    + by rewrite lookup_app_r, Nat.sub_diag by lia.
    + done.
    + intros j other Hj Hother. rewrite lookup_app_l in Hother by done.
      rewrite Forall_lookup in Hinit. by eapply Hinit.
  - assert (i < length ds)%nat as Hlt by by eapply lookup_lt_Some.
    rewrite (handleSave_found row _ i (spread (Some item) row)).
    + by rewrite spread_twice, list_insert_insert_eq.
    + by apply list_lookup_insert_eq.
    + by apply spread_key.
    + intros j other Hj Hother.
      rewrite list_lookup_insert_ne in Hother by lia. by eapply Hbefore.
Qed.




(** The same on an empty sequence: the record is inserted. *)
Lemma handleSave_empty row : handleSave row [] = [row].
Proof. by rewrite handleSave_missing. Qed.

Lemma newRow_key count : key_of (newRow count) = Some (VNum count).
Proof. unfold key_of, newRow. by rewrite lookup_insert_eq. Qed.

Lemma newRow_lookup count f :
  newRow count !! f
  = if decide (f = "key") then Some (VNum count)
    else if decide (f = "name") then Some (VStr "Section 10.7 (2)")
    else None.
Proof.
  unfold newRow. repeat case_decide; subst; by simplify_map_eq.
Qed.

(** C2 as stated fails: the appended record does not have the string
    ["2"] as its key. *)
Lemma initial_add_key_is_not_string :
  ¬ ∃ r, (handleAdd initialDataSource initialCount).1 = initialDataSource ++ [r]
         ∧ key_of r = Some (VStr "2")
         ∧ length (handleAdd initialDataSource initialCount).1 = 3%nat.
Proof.
  intros (r & Heq & Hkey & _). unfold handleAdd in Heq. simpl in Heq.
  apply (inj (app initialDataSource)) in Heq. injection Heq as <-.
  rewrite newRow_key in Hkey. discriminate.
Qed.

(** C2.  From the initial state (keys ["0"] and ["1"], counter 2) [handleAdd]
    appends one record at the end, whose key is the number 2, the value of
    the counter; the sequence then has length 3 and the counter is 3. *)
Theorem handleAdd_initial :
  key_of <$> initialDataSource = [Some (VStr "0"); Some (VStr "1")]
  ∧ ∃ r, (handleAdd initialDataSource initialCount).1 = initialDataSource ++ [r]
         ∧ key_of r = Some (VNum 2)
         ∧ length (handleAdd initialDataSource initialCount).1 = 3%nat
         ∧ (handleAdd initialDataSource initialCount).2 = 3.
Proof.
  split; [by_compute|].
  exists (newRow 2). split_and!; [done| |done..]. apply newRow_key.
Qed.

(** The difference is observable: deleting by the string ["2"] leaves the
    added record in place, deleting by the number 2 removes it. *)
Example handleDelete_after_add :
  handleDelete (VStr "2") (handleAdd initialDataSource initialCount).1
    = (handleAdd initialDataSource initialCount).1
  ∧ handleDelete (VNum 2) (handleAdd initialDataSource initialCount).1
    = initialDataSource.
Proof. split; by_compute. Qed.

(** C3.  The record that [handleAdd] appends has the properties [key] (the
    counter's value) and [name] (a fixed string) and no others: [price],
    [quantity], [discount] and [assignee] are absent, so it is not a full
    [DataType] record. *)
Theorem handleAdd_row_incomplete (ds : list (gmap string value)) (count : Z) :
  ∃ r, (handleAdd ds count).1 = ds ++ [r]
       ∧ r !! "key" = Some (VNum count)
       ∧ r !! "name" = Some (VStr "Section 10.7 (2)")
       ∧ r !! "price" = None ∧ r !! "quantity" = None
       ∧ r !! "discount" = None ∧ r !! "assignee" = None
       ∧ ¬ has_all_fields r.
Proof.
  exists (newRow count). split_and!; [done|by rewrite newRow_lookup..|].
  intros Hall. unfold has_all_fields, DataType_fields in Hall.
  apply Forall_cons in Hall as [_ Hall]. apply Forall_cons in Hall as [_ Hall].
  apply Forall_cons in Hall as [[v Hv] _].
  by rewrite newRow_lookup in Hv.
Qed.

(** ** Uniqueness of keys *)

Lemma keys_handleAdd ds count :
  keys (handleAdd ds count).1 = keys ds ++ [Some (VNum count)].
Proof. unfold keys, handleAdd. simpl. by rewrite fmap_app. Qed.

Lemma keys_handleDelete_sublist key ds :
  keys (handleDelete key ds) `sublist_of` keys ds.
Proof. unfold keys. apply fmap_sublist, sublist_filter. Qed.

Lemma Forall_key_differs row ds :
  Forall (λ item, key_of item ≠ key_of row) ds ↔ key_of row ∉ keys ds.
Proof.
  unfold keys. rewrite Forall_forall. split.
  - intros Hall (item & Heq & Hin)%list_elem_of_fmap. by eapply Hall.
  - intros Hnot item Hin Heq. apply Hnot, list_elem_of_fmap. by exists item.
Qed.

(** Either the keys are unchanged (key found) or the last key is replaced
    by the one of [row] (key not found). *)
Lemma keys_handleSave row ds :
  (key_of row ∈ keys ds ∧ keys (handleSave row ds) = keys ds)
  ∨ ((key_of row ∉ keys ds)
     ∧ keys (handleSave row ds)
       = take (Nat.pred (length ds)) (keys ds) ++ [key_of row]).
Proof.
  destruct (handleSave_cases row ds)
    as [[Hmiss ->]|(i & item & Hi & Hk & _ & ->)].
  - right. split; [by apply Forall_key_differs|].
    unfold keys. by rewrite fmap_app, fmap_take.
  - left. split.
    + unfold keys. apply list_elem_of_fmap. exists item.
      split; [done|]. by eapply list_elem_of_lookup_2.
    + by apply handleSave_found_keys.
Qed.

Lemma NoDup_keys_handleAdd ds count :
  NoDup (keys ds) → Some (VNum count) ∉ keys ds →
  NoDup (keys (handleAdd ds count).1).
Proof.
  intros Hnd Hfresh. rewrite keys_handleAdd. apply NoDup_app.
  split_and!; [done| |apply NoDup_singleton].
  intros k Hk ->%list_elem_of_singleton. done.
Qed.

Lemma NoDup_keys_handleDelete key ds :
  NoDup (keys ds) → NoDup (keys (handleDelete key ds)).
Proof. intros Hnd. eapply sublist_NoDup, keys_handleDelete_sublist. done. Qed.

Lemma NoDup_keys_handleSave row ds :
  NoDup (keys ds) → NoDup (keys (handleSave row ds)).
Proof.
  intros Hnd. destruct (keys_handleSave row ds) as [[_ ->]|[Hnot ->]]; [done|].
  apply NoDup_app. split_and!.
  - eapply sublist_NoDup; [done|apply sublist_take].
  - intros k Hk ->%list_elem_of_singleton.
    apply Hnot. eapply elem_of_sublist; [done|apply sublist_take].
  - apply NoDup_singleton.
Qed.

(** Adding a row and deleting it again, over and over, walks the counter
    up with an empty sequence; the counter reaches 2^53. *)
Lemma reachable_empty n : 2 ≤ n ≤ two53 → reachable [] n.
Proof.
  intros [Hlo Hhi]. revert Hhi.
  apply (Zlt_lower_bound_ind (λ n, n ≤ two53 → reachable [] n) 2); [|done].
  clear n Hlo. intros n IH Hlo Hhi.
  destruct (decide (n = 2)) as [->|Hn].
  - assert (handleDelete (VStr "1") (handleDelete (VStr "0") initialDataSource)
            = []) as <- by by_compute.
    apply reach_delete, reach_delete, reach_initial.
  - assert (reachable [] (n - 1)) as Hprev by (apply IH; lia).
    apply reach_add, (reach_delete (VNum (n - 1))) in Hprev.
    unfold handleAdd in Hprev. simpl in Hprev.
    rewrite add_one_exact in Hprev by (unfold two53 in *; lia).
    replace (n - 1 + 1) with n in Hprev by lia.
    unfold handleDelete in Hprev.
    rewrite filter_cons_False, filter_nil in Hprev; [done|].
    rewrite newRow_key. by intros ?.
Qed.

(** At 2^53 the counter stops: [count + 1] is [count] again. *)
Lemma reachable_stuck : reachable [newRow two53] two53.
Proof.
  assert (reachable [] two53) as Hr by (apply reachable_empty; unfold two53; lia).
  apply reach_add in Hr. unfold handleAdd in Hr. simpl in Hr.
  by rewrite add_one_stuck in Hr.
Qed.

(** C5 as stated fails for [handleAdd]: in a state the application can
    reach, with pairwise distinct keys, the counter has stopped at 2^53
    and its value is a key of the sequence already; the appended record
    duplicates it. *)
Lemma handleAdd_can_duplicate_key :
  reachable [newRow two53] two53
  ∧ NoDup (keys [newRow two53])
  ∧ ¬ NoDup (keys (handleAdd [newRow two53] two53).1).
Proof.
  split; [|split].
  - apply reachable_stuck.
  - apply NoDup_singleton.
  - rewrite keys_handleAdd. unfold keys. simpl. rewrite newRow_key.
    intros Hnd. apply NoDup_cons in Hnd as [Hnot _].
    apply Hnot, list_elem_of_singleton. done.
Qed.

(** C5.  On a sequence with pairwise distinct keys, [handleDelete] and
    [handleSave] (with any arguments) give a sequence with pairwise
    distinct keys, and so does [handleAdd] when the counter's value is not
    already a key of the sequence. *)
Theorem keys_stay_unique (ds : list (gmap string value)) (count : Z)
    (key : value) (row : gmap string value) :
  NoDup (keys ds) →
  (Some (VNum count) ∉ keys ds → NoDup (keys (handleAdd ds count).1))
  ∧ NoDup (keys (handleDelete key ds))
  ∧ NoDup (keys (handleSave row ds)).
Proof.
  intros Hnd. split_and!.
  - by apply NoDup_keys_handleAdd.
  - by apply NoDup_keys_handleDelete.
  - by apply NoDup_keys_handleSave.
Qed.

Lemma keys_stay_unique_witness :
  NoDup (keys (handleAdd initialDataSource initialCount).1)
  ∧ NoDup (keys (handleDelete (VStr "0") initialDataSource))
  ∧ NoDup (keys (handleSave {[ "key" := VStr "7" ]} initialDataSource)).
Proof.
  destruct (keys_stay_unique initialDataSource initialCount (VStr "0")
              {[ "key" := VStr "7" ]}) as (Hadd & Hdel & Hsave).
  - by_compute.
  - split_and!; [|done..]. apply Hadd. by_compute.
Defined.

(** While the counter is below 2^53, every state the application reaches
    has pairwise distinct keys and its numeric keys are below the
    counter; the counter never goes below 2. *)
Lemma reachable_invariant ds count :
  reachable ds count →
  2 ≤ count ∧ (count < two53 → NoDup (keys ds) ∧ counter_above ds count).
Proof.
  induction 1 as [|ds count _ [Hlo IH]|key ds count _ [Hlo IH]
                  |row ds count _ [Hlo IH] Hin].
  - split; [done|]. intros _. split; [by_compute|]. intros n Hn.
    unfold keys, initialDataSource in Hn. simpl in Hn. unfold key_of in Hn.
    apply elem_of_cons in Hn as [Hn|Hn]; [by vm_compute in Hn|].
    apply list_elem_of_singleton in Hn. by vm_compute in Hn.
  - change (handleAdd ds count).2 with (add_one count).
    split; [pose proof (add_one_lower count); lia|].
    intros Hbelow.
    destruct (add_one_below count) as [Hc Hexact]; [lia|done|].
    destruct (IH Hc) as [Hnd Hlt]. split.
    + apply NoDup_keys_handleAdd; [done|]. intros Hin%Hlt. lia.
    + intros n. rewrite keys_handleAdd, Hexact.
      intros [Hn|[= ->]%list_elem_of_singleton]%elem_of_app.
      * apply Hlt in Hn. lia.
      * lia.
  - split; [done|]. intros Hc. destruct (IH Hc) as [Hnd Hlt].
    split; [by apply NoDup_keys_handleDelete|].
    intros n Hn. apply Hlt. eapply elem_of_sublist; [done|].
    apply keys_handleDelete_sublist.
  - split; [done|]. intros Hc. destruct (IH Hc) as [Hnd Hlt].
    split; [by apply NoDup_keys_handleSave|].
    destruct (keys_handleSave row ds) as [[_ Heq]|[Hnot _]]; [|done].
    unfold counter_above. by rewrite Heq.
Qed.

(** ** The handlers on the heap of arrays *)

Lemma alloc_spec arr (h : gmap positive (list (gmap string value))) :
  ((App.alloc arr h).1 ∉ dom h)
  ∧ (App.alloc arr h).2 !! (App.alloc arr h).1 = Some arr
  ∧ ∀ l a, h !! l = Some a → (App.alloc arr h).2 !! l = Some a.
Proof.
  unfold App.alloc. simpl. pose proof (is_fresh (dom h)) as Hfresh.
  split_and!; [done|by rewrite lookup_insert_eq|].
  intros l a Hl. rewrite lookup_insert_ne; [done|].
  intros <-. apply Hfresh, elem_of_dom. by eexists.
Qed.

Lemma App_handleDelete_run key st ds :
  App.rows st = Some ds →
  ∃ st', App.handleDelete key st = Some st'
         ∧ App.rows st' = Some (handleDelete key ds)
         ∧ App.count st' = App.count st
         ∧ App.keeps_old st st'.
Proof.
  unfold App.rows, App.handleDelete. intros ->.
  destruct (alloc_spec (filter (λ item, key_of item ≠ Some key) ds)
              (App.arrays st)) as (Hfresh & Hnew & Hold).
  unfold App.alloc in *. simpl in *.
  eexists. split; [done|]. simpl. split_and!; [done..|by split].
Qed.

Lemma App_handleAdd_run st ds :
  App.rows st = Some ds →
  ∃ st', App.handleAdd st = Some st'
         ∧ App.rows st' = Some (handleAdd ds (App.count st)).1
         ∧ App.count st' = (handleAdd ds (App.count st)).2
         ∧ App.keeps_old st st'.
Proof.
  unfold App.rows, App.handleAdd. intros ->.
  destruct (alloc_spec (ds ++ [newRow (App.count st)]) (App.arrays st))
    as (Hfresh & Hnew & Hold).
  unfold App.alloc in *. simpl in *.
  eexists. split; [done|]. simpl. split_and!; [done..|by split].
Qed.

Lemma App_handleSave_run row st ds :
  App.rows st = Some ds →
  ∃ st', App.handleSave row st = Some st'
         ∧ App.rows st' = Some (handleSave row ds)
         ∧ App.count st' = App.count st
         ∧ App.keeps_old st st'.
Proof.
  unfold App.rows, App.handleSave. intros ->.
  destruct (alloc_spec ds (App.arrays st)) as (Hfresh & Hnew & Hold).
  unfold App.alloc in *. simpl in *.
  rewrite Hnew. simpl. eexists. split; [done|]. simpl. split_and!.
  - by rewrite lookup_insert_eq.
  - done.
  - split; [done|]. simpl. intros l arr Hl.
    rewrite lookup_insert_ne; [by apply Hold|].
    intros <-. apply Hfresh, elem_of_dom. by eexists.
Qed.

(** Two runs from states that show the same sequence show the same
    sequence afterwards; for [handleAdd] the counters must agree too. *)
Lemma App_handlers_agree st1 st2 key row :
  is_Some (App.rows st1) → App.rows st1 = App.rows st2 →
  (App.handleDelete key st1 ≫= App.rows) = (App.handleDelete key st2 ≫= App.rows)
  ∧ (App.handleSave row st1 ≫= App.rows) = (App.handleSave row st2 ≫= App.rows)
  ∧ (App.count st1 = App.count st2 →
     (App.handleAdd st1 ≫= App.rows) = (App.handleAdd st2 ≫= App.rows)).
Proof.
  intros [ds H1] H2. rewrite H1 in H2. symmetry in H2. split_and!.
  - destruct (App_handleDelete_run key st1 ds H1) as (s1 & -> & R1 & _).
    destruct (App_handleDelete_run key st2 ds H2) as (s2 & -> & R2 & _).
    simpl. by rewrite R1, R2.
  - destruct (App_handleSave_run row st1 ds H1) as (s1 & -> & R1 & _).
    destruct (App_handleSave_run row st2 ds H2) as (s2 & -> & R2 & _).
    simpl. by rewrite R1, R2.
  - intros Hc.
    destruct (App_handleAdd_run st1 ds H1) as (s1 & -> & R1 & _).
    destruct (App_handleAdd_run st2 ds H2) as (s2 & -> & R2 & _).
    simpl. by rewrite R1, R2, Hc.
Qed.

(** C9 as stated fails for [handleAdd]: it takes no argument, and from two
    states showing the same sequence it produces different sequences,
    because the key it assigns is read from the counter. *)
Lemma handleAdd_depends_on_counter :
  ∃ st2, after_add_delete = Some st2
    ∧ App.rows App.initial = App.rows st2
    ∧ (App.handleAdd App.initial ≫= App.rows)
      ≠ (App.handleAdd st2 ≫= App.rows).
Proof.
  exists (default App.initial after_add_delete). split_and!; by_compute.
Qed.

(** C9.  [handleDelete] and [handleSave] compute the new sequence from
    the old sequence and their argument alone, and [handleAdd] from the
    old sequence and the counter; each of them succeeds, stores its
    result in a newly allocated array and leaves every existing array, the
    old sequence included, as it was. *)
Theorem handlers_functional_and_copying (st : App.state)
    (ds : list (gmap string value)) (key : value) (row : gmap string value) :
  App.rows st = Some ds →
  (∃ st', App.handleDelete key st = Some st'
          ∧ App.rows st' = Some (handleDelete key ds)
          ∧ App.keeps_old st st')
  ∧ (∃ st', App.handleSave row st = Some st'
            ∧ App.rows st' = Some (handleSave row ds)
            ∧ App.keeps_old st st')
  ∧ (∃ st', App.handleAdd st = Some st'
            ∧ App.rows st' = Some (handleAdd ds (App.count st)).1
            ∧ App.count st' = (handleAdd ds (App.count st)).2
            ∧ App.keeps_old st st').
Proof.
  intros Hrows. split_and!.
  - destruct (App_handleDelete_run key st ds Hrows) as (st' & ? & ? & _ & ?).
    by exists st'.
  - destruct (App_handleSave_run row st ds Hrows) as (st' & ? & ? & _ & ?).
    by exists st'.
  - by apply App_handleAdd_run.
Qed.

Lemma handlers_functional_and_copying_witness :
  (∃ st', App.handleDelete (VStr "0") App.initial = Some st'
          ∧ App.rows st' = Some (handleDelete (VStr "0") initialDataSource)
          ∧ App.keeps_old App.initial st')
  ∧ (∃ st', App.handleSave {[ "key" := VStr "1" ]} App.initial = Some st'
            ∧ App.rows st'
              = Some (handleSave {[ "key" := VStr "1" ]} initialDataSource)
            ∧ App.keeps_old App.initial st')
  ∧ (∃ st', App.handleAdd App.initial = Some st'
            ∧ App.rows st' = Some (handleAdd initialDataSource 2).1
            ∧ App.count st' = (handleAdd initialDataSource 2).2
            ∧ App.keeps_old App.initial st').
Proof.
  apply (handlers_functional_and_copying App.initial initialDataSource
           (VStr "0") {[ "key" := VStr "1" ]}).
  reflexivity.
Defined.

(** ** The editable cell *)

Lemma required_rule_rejects_empty name (store : gmap string value) :
  store !! name = Some (VStr EmptyString) → Cell.required_rule name store = inr [name].
Proof. unfold Cell.required_rule. intros ->. by rewrite decide_True. Qed.

Lemma required_rule_rejects_absent name (store : gmap string value) :
  store !! name = None → Cell.required_rule name store = inr [name].
Proof. unfold Cell.required_rule. by intros ->. Qed.

Lemma required_rule_accepts name (store : gmap string value) v :
  store !! name = Some v → v ≠ VStr EmptyString →
  Cell.required_rule name store = inl {[ name := v ]}.
Proof. unfold Cell.required_rule. intros -> Hv. by rewrite decide_False. Qed.

(** The run of [save] when [validateFields] rejects. *)
Lemma run_save_rejected validate c w errInfo :
  validate (Cell.fields w) = inr errInfo →
  Cell.save validate c w
  = (inl (), Cell.emit (Cell.ConsoleLog "Save failed:" errInfo) w).
Proof.
  intros Hv. unfold Cell.save, Cell.try_catch, mbind, Cell.M_bind,
    Cell.validateFields. by rewrite Hv.
Qed.

(** The run of [save] when [validateFields] resolves. *)
Lemma run_save_accepted validate c w values :
  validate (Cell.fields w) = inl values →
  Cell.save validate c w
  = (inl (),
     Cell.World (negb (Cell.c_editing c))
       (partial_alter (λ _, Cell.c_record c !! Cell.c_dataIndex c)
          (Cell.c_dataIndex c) (Cell.fields w))
       (handleSave (spread (Some (Cell.c_record c)) values)
          (Cell.c_dataSource c))
       (Cell.trace w
          ++ [Cell.SetEditing (negb (Cell.c_editing c));
              Cell.SetFieldsValue (Cell.c_dataIndex c)
                (Cell.c_record c !! Cell.c_dataIndex c);
              Cell.HandleSave (spread (Some (Cell.c_record c)) values)])).
Proof.
  intros Hv. unfold Cell.save, Cell.try_catch, mbind, Cell.M_bind,
    Cell.validateFields, Cell.toggleEdit. rewrite Hv. simpl.
  unfold mbind, Cell.M_bind. simpl. unfold Cell.emit. simpl.
  by rewrite <- !(assoc_L (++)).
Qed.

(** In a trace that ends with [SetEditing false], [SetFieldsValue] and
    [HandleSave], in this order, and has neither kind of event earlier, no
    [HandleSave] comes before a [SetEditing false]. *)
Lemma toggle_then_save_order name v row :
  ¬ Cell.happens_before Cell.is_HandleSave (Cell.is_SetEditing false)
      [Cell.SetEditing false; Cell.SetFieldsValue name v; Cell.HandleSave row].
Proof.
  intros (i & j & x & y & Hi & Hj & Hx & Hy & Hlt).
  destruct i as [|[|[|i]]]; simpl in Hi; simplify_eq; try discriminate.
  destruct j as [|[|[|j]]]; simpl in Hj; simplify_eq; try discriminate; lia.
Qed.

(** C4.  A cell in edit mode whose commit is rejected by validation stays
    in edit mode; the row sequence and the form fields are unchanged; the
    only call recorded is the [console.log] of the error, so [handleSave]
    is not invoked; and [save] returns normally, the error is not thrown
    further. *)
Theorem save_rejected (validate : gmap string value → gmap string value + list string)
    (c : Cell.closure) (w : Cell.world) (errInfo : list string) :
  Cell.editing w = true →
  validate (Cell.fields w) = inr errInfo →
  ∃ w', Cell.save validate c w = (inl (), w')
        ∧ Cell.editing w' = true
        ∧ Cell.dataSource w' = Cell.dataSource w
        ∧ Cell.fields w' = Cell.fields w
        ∧ Cell.trace w'
          = Cell.trace w ++ [Cell.ConsoleLog "Save failed:" errInfo].
Proof.
  intros Hedit Hv. rewrite (run_save_rejected validate c w errInfo Hv).
  eexists. split; [done|]. by simpl.
Qed.

Lemma save_rejected_witness :
  ∃ w', Cell.save (Cell.required_rule "quantity") (quantity_cell EmptyString)
          (quantity_cell_world EmptyString) = (inl (), w')
        ∧ Cell.editing w' = true
        ∧ Cell.dataSource w' = initialDataSource
        ∧ Cell.fields w' = {[ "quantity" := VStr EmptyString ]}
        ∧ Cell.trace w' = [Cell.ConsoleLog "Save failed:" ["quantity"]].
Proof.
  apply (save_rejected (Cell.required_rule "quantity") (quantity_cell EmptyString)
           (quantity_cell_world EmptyString) ["quantity"]).
  - reflexivity.
  - vm_compute. reflexivity.
Defined.

(** C6 as stated fails on the order: in the trace of a successful commit
    the call of [handleSave] does not come before the switch to view
    mode; [toggleEdit] runs first. *)
Lemma save_updates_store_after_toggle :
  ∃ w', Cell.save (Cell.required_rule "quantity") (quantity_cell "5")
          (quantity_cell_world "5") = (inl (), w')
        ∧ ¬ Cell.happens_before Cell.is_HandleSave (Cell.is_SetEditing false)
              (Cell.trace w')
        ∧ Cell.happens_before (Cell.is_SetEditing false) Cell.is_HandleSave
            (Cell.trace w').
Proof.
  eexists. split.
  - apply (run_save_accepted _ _ _ {[ "quantity" := VStr "5" ]}).
    vm_compute. reflexivity.
  - simpl. split; [apply toggle_then_save_order|].
    exists 0%nat, 2%nat. do 2 eexists. split_and!; [done..|lia].
Qed.

(** C6.  A cell in edit mode whose commit passes validation first switches
    to view mode and resets its form field ([toggleEdit]), and then calls
    [handleSave] with the record in which the validated values override
    the fields of the cell's record; the row sequence becomes the result
    of that [handleSave]. *)
Theorem save_accepted (validate : gmap string value → gmap string value + list string)
    (c : Cell.closure) (w : Cell.world) (values : gmap string value) :
  Cell.c_editing c = true →
  Cell.editing w = true →
  validate (Cell.fields w) = inl values →
  ∃ w' merged,
    Cell.save validate c w = (inl (), w')
    ∧ (∀ f, merged !! f
            = match values !! f with
              | Some v => Some v
              | None => Cell.c_record c !! f
              end)
    ∧ Cell.editing w' = false
    ∧ Cell.dataSource w' = handleSave merged (Cell.c_dataSource c)
    ∧ Cell.trace w'
      = Cell.trace w
        ++ [Cell.SetEditing false;
            Cell.SetFieldsValue (Cell.c_dataIndex c)
              (Cell.c_record c !! Cell.c_dataIndex c);
            Cell.HandleSave merged].
Proof.
  intros Hc Hw Hv. rewrite (run_save_accepted validate c w values Hv), Hc.
  eexists _, (spread (Some (Cell.c_record c)) values).
  split; [done|]. split; [apply spread_lookup|]. by simpl.
Qed.

Lemma save_accepted_witness :
  ∃ w' merged,
    Cell.save (Cell.required_rule "quantity") (quantity_cell "5")
      (quantity_cell_world "5") = (inl (), w')
    ∧ (∀ f, merged !! f
            = match ({[ "quantity" := VStr "5" ]} : gmap string value) !! f with
              | Some v => Some v
              | None => (initialDataSource !!! 0%nat) !! f
              end)
    ∧ Cell.editing w' = false
    ∧ Cell.dataSource w' = handleSave merged initialDataSource
    ∧ Cell.trace w'
      = [Cell.SetEditing false;
         Cell.SetFieldsValue "quantity" (Some (VNum 1));
         Cell.HandleSave merged].
Proof.
  apply (save_accepted (Cell.required_rule "quantity") (quantity_cell "5")
           (quantity_cell_world "5") {[ "quantity" := VStr "5" ]}).
  - reflexivity.
  - reflexivity.
  - vm_compute. reflexivity.
Defined.

(** ** Further properties of the row store *)

Lemma handleSave_cons_hit row x ds :
  key_of x = key_of row →
  handleSave row (x :: ds) = spread (Some x) row :: ds.
Proof.
  intros Hk. rewrite (handleSave_found row (x :: ds) 0 x); [done..|].
  intros j other Hj. lia.
Qed.

Lemma handleSave_cons_skip row x ds :
  key_of x ≠ key_of row → key_of row ∈ keys ds →
  handleSave row (x :: ds) = x :: handleSave row ds.
Proof.
  intros Hx Hin.
  destruct (handleSave_cases row ds)
    as [[Hmiss _]|(i & item & Hi & Hk & Hbefore & ->)].
  { by apply Forall_key_differs in Hmiss. }
  rewrite (handleSave_found row (x :: ds) (S i) item); [done..|].
  intros [|j] other Hj Hother; simpl in Hother.
  - by simplify_eq.
  - apply (Hbefore j other); [lia|done].
Qed.

Lemma keys_handleSave_found row ds :
  key_of row ∈ keys ds → keys (handleSave row ds) = keys ds.
Proof.
  intros Hin. by destruct (keys_handleSave row ds) as [[_ ?]|[? _]].
Qed.

Lemma key_in_keys_handleDelete row key ds :
  key_of row ≠ Some key → key_of row ∈ keys ds →
  key_of row ∈ keys (handleDelete key ds).
Proof.
  unfold keys, handleDelete. intros Hne (item & Heq & Hin)%list_elem_of_fmap.
  apply list_elem_of_fmap. exists item. split; [done|].
  apply list_elem_of_filter. split; [congruence|done].
Qed.

(** Deleting the key that [handleAdd] has just assigned gives back the
    sequence from before the add, provided that key was new. *)
Theorem handleDelete_undoes_handleAdd (ds : list (gmap string value)) (count : Z) :
  Some (VNum count) ∉ keys ds →
  handleDelete (VNum count) (handleAdd ds count).1 = ds.
Proof.
  intros Hfresh. unfold handleAdd, handleDelete. simpl.
  rewrite filter_app, filter_cons_False, filter_nil, app_nil_r.
  - apply handleDelete_no_match, Forall_forall. intros item Hin Heq.
    apply Hfresh, list_elem_of_fmap. by exists item.
  - rewrite newRow_key. by intros Hne.
Qed.

Lemma handleDelete_undoes_handleAdd_witness :
  handleDelete (VNum 2) (handleAdd initialDataSource 2).1 = initialDataSource.
Proof. apply (handleDelete_undoes_handleAdd initialDataSource 2). by_compute. Defined.

(** Deletions by two keys can be done in either order. *)
Theorem handleDelete_comm (k1 k2 : value) (ds : list (gmap string value)) :
  handleDelete k1 (handleDelete k2 ds) = handleDelete k2 (handleDelete k1 ds).
Proof.
  unfold handleDelete. rewrite !list_filter_filter.
  apply list_filter_iff. intros item. tauto.
Qed.

(** On a sequence with pairwise distinct keys, deleting a key that occurs
    removes exactly one record. *)
Theorem handleDelete_removes_one (key : value) (ds : list (gmap string value)) :
  NoDup (keys ds) → Some key ∈ keys ds →
  S (length (handleDelete key ds)) = length ds.
Proof.
  unfold keys, handleDelete.
  induction ds as [|x ds IH]; simpl; intros Hnd Hin.
  - by apply elem_of_nil in Hin.
  - apply NoDup_cons in Hnd as [Hx Hnd].
    destruct (decide (key_of x = Some key)) as [Heq|Hne].
    + rewrite filter_cons_False by (by intros Hne). f_equal.
      fold (handleDelete key ds). rewrite handleDelete_no_match; [done|].
      apply Forall_forall. intros item Hitem Hk.
      apply Hx, list_elem_of_fmap. exists item. split; [congruence|done].
    + rewrite filter_cons_True by done. simpl. f_equal.
      apply IH; [done|].
      apply elem_of_cons in Hin as [Hin|Hin]; [congruence|done].
Qed.

Lemma handleDelete_removes_one_witness :
  S (length (handleDelete (VStr "1") initialDataSource))
  = length initialDataSource.
Proof.
  apply (handleDelete_removes_one (VStr "1") initialDataSource); by_compute.
Defined.

(** [handleSave] never shortens the sequence and lengthens it only when
    it is empty: the result has the length of the input, or 1 for the
    empty input. *)
Theorem handleSave_length (row : gmap string value)
    (ds : list (gmap string value)) :
  length (handleSave row ds) = Nat.max 1 (length ds).
Proof.
  destruct (handleSave_cases row ds)
    as [[_ ->]|(i & item & Hi & _ & _ & ->)].
  - rewrite length_app, length_take. simpl. lia.
  - rewrite length_insert. apply lookup_lt_Some in Hi. lia.
Qed.

(** After [handleSave] the sequence holds a record with the key of [row]
    in which every field of [row] reads as [row] gave it, whether or not
    the key was there before. *)
Theorem handleSave_stores_row (row : gmap string value)
    (ds : list (gmap string value)) :
  ∃ (i : nat) r,
    handleSave row ds !! i = Some r
    ∧ key_of r = key_of row
    ∧ ∀ f v, row !! f = Some v → r !! f = Some v.
Proof.
  destruct (handleSave_cases row ds)
    as [[_ ->]|(i & item & Hi & Hk & _ & ->)].
  - exists (length (take (Nat.pred (length ds)) ds)), row.
    split_and!; [|done..].
    by rewrite lookup_app_r, Nat.sub_diag by lia.
  - exists i, (spread (Some item) row). split_and!.
    + apply list_lookup_insert_eq. by eapply lookup_lt_Some.
    + by apply spread_key.
    + intros f v Hf. by rewrite spread_lookup, Hf.
Qed.

(** When several records carry the key of [row], only the first of them
    is replaced by the merge; the later ones, like all other records,
    stay as they are. *)
Theorem handleSave_first_match_only (row : gmap string value)
    (ds : list (gmap string value)) (i : nat) (item : gmap string value) :
  ds !! i = Some item →
  key_of item = key_of row →
  (∀ (j : nat) other, (j < i)%nat → ds !! j = Some other →
     key_of other ≠ key_of row) →
  handleSave row ds !! i = Some (spread (Some item) row)
  ∧ ∀ j : nat, j ≠ i → handleSave row ds !! j = ds !! j.
Proof.
  intros Hi Hk Hbefore. rewrite (handleSave_found row ds i item Hi Hk Hbefore).
  split.
  - apply list_lookup_insert_eq. by eapply lookup_lt_Some.
  - intros j Hj. by apply list_lookup_insert_ne.
Qed.

Lemma handleSave_first_match_only_witness :
  let a : gmap string value := {[ "key" := VStr "k"; "price" := VNum 1 ]} in
  let b : gmap string value := {[ "key" := VStr "k"; "price" := VNum 2 ]} in
  let row : gmap string value := {[ "key" := VStr "k"; "quantity" := VNum 9 ]} in
  handleSave row [a; b] !! 0%nat = Some (spread (Some a) row)
  ∧ ∀ j : nat, j ≠ 0%nat → handleSave row [a; b] !! j = [a; b] !! j.
Proof.
  intros a b row. apply (handleSave_first_match_only row [a; b] 0 a).
  - reflexivity.
  - by_compute.
  - intros j other Hj. lia.
Defined.

(** Saving a record exactly as the sequence already has it (at the first
    slot with its key) changes nothing. *)
Theorem handleSave_unchanged_row (ds : list (gmap string value)) (i : nat)
    (item : gmap string value) :
  ds !! i = Some item →
  (∀ (j : nat) other, (j < i)%nat → ds !! j = Some other →
     key_of other ≠ key_of item) →
  handleSave item ds = ds.
Proof.
  intros Hi Hbefore.
  rewrite (handleSave_found item ds i item Hi eq_refl Hbefore), spread_self.
  by apply list_insert_id.
Qed.

Lemma handleSave_unchanged_row_witness :
  handleSave (initialDataSource !!! 1%nat) initialDataSource = initialDataSource.
Proof.
  apply (handleSave_unchanged_row initialDataSource 1 (initialDataSource !!! 1%nat)).
  - reflexivity.
  - intros [|j] other Hj Hother; [|lia].
    injection Hother as <-. vm_compute. discriminate.
Defined.

(** Two saves for the same key amount to one save of the second record
    spread over the first: later fields win, fields only the first save
    gave are kept. *)
Theorem handleSave_twice_same_key (r1 r2 : gmap string value)
    (ds : list (gmap string value)) :
  key_of r1 = key_of r2 →
  handleSave r2 (handleSave r1 ds) = handleSave (spread (Some r1) r2) ds.
Proof.
  intros Hk.
  assert (key_of (spread (Some r1) r2) = key_of r1) as Hk12.
  { rewrite spread_key; done. }
  destruct (handleSave_cases r1 ds)
    as [[Hmiss ->]|(i & item & Hi & Hki & Hbefore & ->)].
  - set (init := take (Nat.pred (length ds)) ds).
    assert (Forall (λ x, key_of x ≠ key_of r1) init) as Hinit
      by by apply Forall_take.
    rewrite (handleSave_found r2 (init ++ [r1]) (length init) r1).
    + rewrite handleSave_missing by (by rewrite Hk12). fold init.
      by rewrite insert_app_r_alt, Nat.sub_diag by lia.
    + by rewrite lookup_app_r, Nat.sub_diag by lia.
    + done.
    + intros j other Hj Hother. rewrite lookup_app_l in Hother by done.
      rewrite Forall_lookup in Hinit. rewrite <- Hk. by eapply Hinit.
  - assert (i < length ds)%nat as Hlt by by eapply lookup_lt_Some.
    rewrite (handleSave_found r2 _ i (spread (Some item) r1)).
    + rewrite (handleSave_found (spread (Some r1) r2) ds i item);
        [|done|congruence|].
      * rewrite list_insert_insert_eq. f_equal.
        unfold spread. simpl. by rewrite (assoc_L (∪)).
      * intros j other Hj Hother. rewrite Hk12. by eapply Hbefore.
    + by apply list_lookup_insert_eq.
    + rewrite spread_key; done.
    + intros j other Hj Hother.
      rewrite list_lookup_insert_ne in Hother by lia.
      rewrite <- Hk. by eapply Hbefore.
Qed.

Lemma handleSave_twice_same_key_witness :
  let r1 : gmap string value := {[ "key" := VStr "0"; "price" := VNum 5 ]} in
  let r2 : gmap string value := {[ "key" := VStr "0"; "quantity" := VNum 7 ]} in
  handleSave r2 (handleSave r1 initialDataSource)
  = handleSave (spread (Some r1) r2) initialDataSource.
Proof.
  intros r1 r2. apply (handleSave_twice_same_key r1 r2 initialDataSource).
  by_compute.
Defined.

(** Saves for two different keys that both occur in the sequence can be
    done in either order. *)
Theorem handleSave_comm (r1 r2 : gmap string value)
    (ds : list (gmap string value)) :
  key_of r1 ≠ key_of r2 →
  key_of r1 ∈ keys ds → key_of r2 ∈ keys ds →
  handleSave r1 (handleSave r2 ds) = handleSave r2 (handleSave r1 ds).
Proof.
  intros Hne. induction ds as [|x ds IH]; intros H1 H2.
  { by apply elem_of_nil in H1. }
  unfold keys in H1, H2. simpl in H1, H2.
  apply elem_of_cons in H1 as [H1|H1]; apply elem_of_cons in H2 as [H2|H2].
  - congruence.
  - rewrite (handleSave_cons_skip r2 x ds) by (done || congruence).
    rewrite !(handleSave_cons_hit r1) by done.
    rewrite handleSave_cons_skip; [done| |done].
    rewrite spread_key by done. congruence.
  - rewrite (handleSave_cons_skip r1 x ds) by (done || congruence).
    rewrite !(handleSave_cons_hit r2) by done.
    rewrite handleSave_cons_skip; [done| |done].
    rewrite spread_key by done. congruence.
  - destruct (decide (key_of x = key_of r1)) as [E1|N1];
      [|destruct (decide (key_of x = key_of r2)) as [E2|N2]].
    + rewrite (handleSave_cons_skip r2 x ds) by (done || congruence).
      rewrite !(handleSave_cons_hit r1) by done.
      rewrite handleSave_cons_skip; [done| |done].
      rewrite spread_key by done. congruence.
    + rewrite (handleSave_cons_skip r1 x ds) by (done || congruence).
      rewrite !(handleSave_cons_hit r2) by done.
      rewrite handleSave_cons_skip; [done| |done].
      rewrite spread_key by done. congruence.
    + rewrite (handleSave_cons_skip r2 x ds), (handleSave_cons_skip r1 x ds)
        by done.
      rewrite !handleSave_cons_skip; try done.
      * f_equal. by apply IH.
      * by rewrite keys_handleSave_found.
      * by rewrite keys_handleSave_found.
Qed.

Lemma handleSave_comm_witness :
  let r1 : gmap string value := {[ "key" := VStr "0"; "price" := VNum 5 ]} in
  let r2 : gmap string value := {[ "key" := VStr "1"; "quantity" := VNum 7 ]} in
  handleSave r1 (handleSave r2 initialDataSource)
  = handleSave r2 (handleSave r1 initialDataSource).
Proof.
  intros r1 r2. apply (handleSave_comm r1 r2 initialDataSource); by_compute.
Defined.

(** A save for a key that occurs in the sequence and a deletion by a
    different key can be done in either order. *)
Theorem handleSave_handleDelete_comm (row : gmap string value) (key : value)
    (ds : list (gmap string value)) :
  key_of row ≠ Some key → key_of row ∈ keys ds →
  handleSave row (handleDelete key ds) = handleDelete key (handleSave row ds).
Proof.
  intros Hne. induction ds as [|x ds IH]; intros Hin.
  { by apply elem_of_nil in Hin. }
  destruct (decide (key_of x = key_of row)) as [Ex|Nx].
  - rewrite handleSave_cons_hit by done. unfold handleDelete.
    rewrite !filter_cons_True; [|rewrite spread_key by done; done|congruence].
    by rewrite handleSave_cons_hit.
  - assert (key_of row ∈ keys ds) as Hin'.
    { unfold keys in Hin. simpl in Hin.
      apply elem_of_cons in Hin as [?|?]; [congruence|done]. }
    rewrite (handleSave_cons_skip row x ds) by done.
    destruct (decide (key_of x = Some key)) as [Ek|Nk].
    + unfold handleDelete. rewrite !filter_cons_False by (by intros ?).
      by apply IH.
    + unfold handleDelete. rewrite !filter_cons_True by done.
      fold (handleDelete key ds). fold (handleDelete key (handleSave row ds)).
      rewrite handleSave_cons_skip; [|done|by apply key_in_keys_handleDelete].
      f_equal. by apply IH.
Qed.

Lemma handleSave_handleDelete_comm_witness :
  let row : gmap string value := {[ "key" := VStr "1"; "quantity" := VNum 7 ]} in
  handleSave row (handleDelete (VStr "0") initialDataSource)
  = handleDelete (VStr "0") (handleSave row initialDataSource).
Proof.
  intros row.
  apply (handleSave_handleDelete_comm row (VStr "0") initialDataSource);
    by_compute.
Defined.

Lemma counter_above_fresh ds count :
  counter_above ds count → Some (VNum count) ∉ keys ds.
Proof. intros Hlt Hin%Hlt. lia. Qed.

Lemma counter_above_handleAdd ds count :
  0 ≤ count < two53 →
  counter_above ds count →
  counter_above (handleAdd ds count).1 (handleAdd ds count).2.
Proof.
  intros Hc Hlt n. rewrite keys_handleAdd.
  change (handleAdd ds count).2 with (add_one count).
  rewrite add_one_exact by (unfold two53 in *; lia).
  intros [Hn|[= ->]%list_elem_of_singleton]%elem_of_app; [|lia].
  apply Hlt in Hn. lia.
Qed.

(** [n] adds in a row, from a state whose numeric keys are below the
    counter and as long as the counter stays within 2^53: the old records
    stay in front, the [n] new keys are the successive counter values,
    the counter ends [n] higher, and distinct keys stay distinct. *)
Theorem addN_keys (n : nat) (ds : list (gmap string value)) (count : Z) :
  0 ≤ count →
  count + Z.of_nat n ≤ two53 →
  counter_above ds count →
  keys (addN n ds count).1
    = keys ds ++ ((λ i : nat, Some (VNum (count + Z.of_nat i))) <$> seq 0 n)
  ∧ (addN n ds count).2 = count + Z.of_nat n
  ∧ take (length ds) (addN n ds count).1 = ds
  ∧ (NoDup (keys ds) → NoDup (keys (addN n ds count).1)).
Proof.
  revert ds count. induction n as [|n IH]; intros ds count Hlo Hhi Hlt.
  { simpl. rewrite app_nil_r, firstn_all. split_and!; [done|lia|done..]. }
  assert ((handleAdd ds count).2 = count + 1) as Hnext.
  { apply add_one_exact. unfold two53 in *. lia. }
  destruct (IH (handleAdd ds count).1 (handleAdd ds count).2)
    as (Hkeys & Hcount & Htake & Hnd).
  { lia. }
  { lia. }
  { apply counter_above_handleAdd; [lia|done]. }
  change (addN (S n) ds count)
    with (addN n (handleAdd ds count).1 (handleAdd ds count).2).
  split_and!.
  - rewrite Hkeys, keys_handleAdd, Hnext, <- (assoc_L (++)). f_equal. simpl.
    rewrite Z.add_0_r. f_equal. rewrite <- fmap_S_seq, <- list_fmap_compose.
    apply list_fmap_ext. intros _ i _. simpl. do 2 f_equal. lia.
  - rewrite Hcount, Hnext. lia.
  - apply (f_equal (take (length ds))) in Htake.
    rewrite take_take in Htake.
    change (handleAdd ds count).1 with (ds ++ [newRow count]) in Htake at 1 3.
    rewrite length_app, Nat.min_l in Htake by lia.
    by rewrite Htake, take_app_length.
  - intros Hds. apply Hnd, NoDup_keys_handleAdd; [done|].
    by apply counter_above_fresh.
Qed.

Lemma addN_keys_witness :
  keys (addN 3 initialDataSource initialCount).1
    = keys initialDataSource
      ++ ((λ i : nat, Some (VNum (initialCount + Z.of_nat i))) <$> seq 0 3)
  ∧ (addN 3 initialDataSource initialCount).2 = initialCount + Z.of_nat 3
  ∧ take (length initialDataSource) (addN 3 initialDataSource initialCount).1
    = initialDataSource
  ∧ (NoDup (keys initialDataSource) →
     NoDup (keys (addN 3 initialDataSource initialCount).1)).
Proof.
  apply (addN_keys 3 initialDataSource initialCount).
  - vm_compute. discriminate.
  - vm_compute. discriminate.
  - intros n Hn. unfold keys, initialDataSource in Hn. simpl in Hn.
    unfold key_of in Hn.
    apply elem_of_cons in Hn as [Hn|Hn]; [by vm_compute in Hn|].
    apply list_elem_of_singleton in Hn. by vm_compute in Hn.
Defined.

Lemma reachable_invariant_witness :
  2 ≤ (handleAdd initialDataSource initialCount).2
  ∧ NoDup (keys (handleDelete (VStr "0") (handleAdd initialDataSource initialCount).1))
  ∧ counter_above
      (handleDelete (VStr "0") (handleAdd initialDataSource initialCount).1)
      (handleAdd initialDataSource initialCount).2.
Proof.
  destruct (reachable_invariant
              (handleDelete (VStr "0") (handleAdd initialDataSource initialCount).1)
              (handleAdd initialDataSource initialCount).2) as [Hlo Hinv].
  - apply reach_delete, reach_add, reach_initial.
  - split; [exact Hlo|]. apply Hinv. vm_compute. reflexivity.
Defined.

(** ** Sequences of handler calls on the heap of arrays *)

Lemma App_step_run o st ds :
  App.rows st = Some ds →
  ∃ st', App_step o st = Some st'
         ∧ App.rows st' = Some (apply_op o (ds, App.count st)).1
         ∧ App.count st' = (apply_op o (ds, App.count st)).2
         ∧ App.keeps_old st st'.
Proof.
  intros Hrows. destruct o as [|key|row]; simpl.
  - by apply App_handleAdd_run.
  - by apply App_handleDelete_run.
  - by apply App_handleSave_run.
Qed.

Lemma App_run_spec ops st ds :
  App.rows st = Some ds →
  ∃ st', App_run ops st = Some st'
         ∧ App.rows st' = Some (apply_ops ops (ds, App.count st)).1
         ∧ App.count st' = (apply_ops ops (ds, App.count st)).2
         ∧ ∀ l arr, App.arrays st !! l = Some arr →
                    App.arrays st' !! l = Some arr.
Proof.
  revert st ds. induction ops as [|o ops IH]; intros st ds Hrows.
  { exists st. by split_and!. }
  destruct (App_step_run o st ds Hrows) as (st1 & Hstep & Hr1 & Hc1 & _ & Hold1).
  destruct (IH st1 _ Hr1) as (st' & Hrun & Hr & Hc & Hold).
  exists st'. simpl. rewrite Hstep. simpl. rewrite Hc1 in Hr, Hc.
  unfold apply_ops in *. simpl.
  rewrite <- surjective_pairing in Hr, Hc. split_and!; [done..|].
  intros l arr Hl. by apply Hold, Hold1.
Qed.

(** An array read before a sequence of handler calls reads the same
    afterwards: whoever still holds the old [dataSource] sees the old
    rows, however many updates followed. *)
Theorem App_run_keeps_snapshot (ops : list op) (st st' : App.state)
    (ds : list (gmap string value)) :
  App.rows st = Some ds →
  App_run ops st = Some st' →
  App.arrays st' !! App.dataSource st = Some ds.
Proof.
  intros Hrows Hrun.
  destruct (App_run_spec ops st ds Hrows) as (st2 & Hrun2 & _ & _ & Hold).
  rewrite Hrun in Hrun2. injection Hrun2 as <-. by apply Hold.
Qed.

Lemma App_run_keeps_snapshot_witness :
  ∃ st', App_run [OpSave {[ "key" := VStr "0"; "price" := VNum 1 ]}; OpAdd]
           App.initial = Some st'
         ∧ App.arrays st' !! App.dataSource App.initial = Some initialDataSource.
Proof.
  destruct (App_run [OpSave {[ "key" := VStr "0"; "price" := VNum 1 ]}; OpAdd]
              App.initial) as [st'|] eqn:Hrun.
  - exists st'. split; [done|].
    apply (App_run_keeps_snapshot
             [OpSave {[ "key" := VStr "0"; "price" := VNum 1 ]}; OpAdd]
             App.initial st' initialDataSource); [reflexivity|exact Hrun].
  - exfalso. revert Hrun. vm_compute. discriminate.
Defined.

(** ** Column configuration *)

(** As configured, no column of the table has an editable cell. *)
Lemma defaultColumns_not_editable m record :
  m ∈ Table.columns Table.defaultColumns → Table.cell_editable m record = false.
Proof.
  intros Hm. unfold Table.columns, Table.defaultColumns in Hm. simpl in Hm.
  repeat (apply elem_of_cons in Hm as [->|Hm]; [done|]).
  by apply elem_of_nil in Hm.
Qed.

(** ** The cell under user events *)

Lemma run_toggleEdit c w :
  Cell.toggleEdit c w
  = (inl (),
     Cell.World (negb (Cell.c_editing c))
       (partial_alter (λ _, Cell.c_record c !! Cell.c_dataIndex c)
          (Cell.c_dataIndex c) (Cell.fields w))
       (Cell.dataSource w)
       (Cell.trace w
          ++ [Cell.SetEditing (negb (Cell.c_editing c));
              Cell.SetFieldsValue (Cell.c_dataIndex c)
                (Cell.c_record c !! Cell.c_dataIndex c)])).
Proof.
  unfold Cell.toggleEdit, mbind, Cell.M_bind. simpl.
  unfold Cell.setFieldsValue, Cell.emit. simpl.
  by rewrite <- !(assoc_L (++)).
Qed.

Lemma interact_cons validate editable dataIndex title i ev evs w record :
  Cell.dataSource w !! i = Some record →
  UI.interact validate editable dataIndex title i (ev :: evs) w
  = UI.interact validate editable dataIndex title i evs
      (UI.handle validate editable title (Cell.render dataIndex record w) ev w).2.
Proof. intros Hrec. simpl. by rewrite Hrec. Qed.

(** A cell that is not editable binds no handler: whatever the user does,
    and whatever its edit flag, the state stays as it is. *)
Theorem not_editable_cell_inert
    (validate : gmap string value → gmap string value + list string)
    (dataIndex title : string) (i : nat) (evs : list UI.event) (w : Cell.world) :
  UI.interact validate false dataIndex title i evs w = w.
Proof.
  induction evs as [|ev evs IH]; [done|]. simpl.
  destruct (Cell.dataSource w !! i); [|done].
  by destruct ev.
Qed.

(** With the columns as configured no cell of the table is editable, so
    no user event on a cell changes the edit state, the form fields or
    the row sequence, and [handleSave] is never called. *)
Theorem configured_table_is_read_only
    (validate : gmap string value → gmap string value + list string)
    (m : Table.mapped) (record : gmap string value) (i : nat)
    (evs : list UI.event) (w : Cell.world) :
  m ∈ Table.columns Table.defaultColumns →
  UI.interact validate (Table.cell_editable m record)
    (Table.dataIndex (Table.col m)) (Table.title (Table.col m)) i evs w = w.
Proof.
  intros Hm. rewrite (defaultColumns_not_editable m record Hm).
  induction evs as [|ev evs IH]; [done|]. simpl.
  destruct (Cell.dataSource w !! i); [|done].
  by destruct ev.
Qed.

Lemma configured_table_is_read_only_witness :
  let m := Table.Mapped (Table.Column "Quantity" "quantity" None None false) None in
  UI.interact (Cell.required_rule "quantity")
    (Table.cell_editable m (initialDataSource !!! 0%nat))
    "quantity" "Quantity" 0 [UI.Click; UI.Typing "5"; UI.PressEnter]
    (Cell.World false ∅ initialDataSource [])
  = Cell.World false ∅ initialDataSource [].
Proof.
  intros m.
  apply (configured_table_is_read_only (Cell.required_rule "quantity") m
           (initialDataSource !!! 0%nat) 0
           [UI.Click; UI.Typing "5"; UI.PressEnter]
           (Cell.World false ∅ initialDataSource [])).
  apply (list_elem_of_lookup_2 _ 3%nat). reflexivity.
Defined.

(** A click on an editable cell in view mode switches it to edit mode and
    sets its form field to the record's current value (or clears it when
    the record has none); other form fields and the row sequence are
    untouched and [handleSave] is not called. *)
Theorem click_enters_edit
    (validate : gmap string value → gmap string value + list string)
    (title : string) (c : Cell.closure) (w : Cell.world) :
  Cell.c_editing c = false →
  let w' := (UI.handle validate true title c UI.Click w).2 in
  Cell.editing w' = true
  ∧ Cell.fields w' !! Cell.c_dataIndex c = Cell.c_record c !! Cell.c_dataIndex c
  ∧ (∀ f, f ≠ Cell.c_dataIndex c → Cell.fields w' !! f = Cell.fields w !! f)
  ∧ Cell.dataSource w' = Cell.dataSource w
  ∧ Cell.trace w'
    = Cell.trace w
      ++ [Cell.SetEditing true;
          Cell.SetFieldsValue (Cell.c_dataIndex c)
            (Cell.c_record c !! Cell.c_dataIndex c)].
Proof.
  intros Hc. unfold UI.handle, UI.childNode. rewrite Hc.
  rewrite run_toggleEdit, Hc. simpl. split_and!; try done.
  - by rewrite lookup_partial_alter_eq.
  - intros f Hf. by rewrite lookup_partial_alter_ne.
Qed.

Lemma click_enters_edit_witness :
  let c := Cell.Closure false "quantity" (initialDataSource !!! 0%nat)
             initialDataSource in
  let w := Cell.World false ∅ initialDataSource [] in
  let w' := (UI.handle (Cell.required_rule "quantity") true "Quantity" c
               UI.Click w).2 in
  Cell.editing w' = true
  ∧ Cell.fields w' !! Cell.c_dataIndex c = Cell.c_record c !! Cell.c_dataIndex c
  ∧ (∀ f, f ≠ Cell.c_dataIndex c → Cell.fields w' !! f = Cell.fields w !! f)
  ∧ Cell.dataSource w' = Cell.dataSource w
  ∧ Cell.trace w'
    = Cell.trace w
      ++ [Cell.SetEditing true;
          Cell.SetFieldsValue (Cell.c_dataIndex c)
            (Cell.c_record c !! Cell.c_dataIndex c)].
Proof.
  intros c w.
  apply (click_enters_edit (Cell.required_rule "quantity") "Quantity" c w).
  reflexivity.
Defined.

Lemma handle_commit validate title c ev w :
  Cell.c_editing c = true → ev = UI.PressEnter ∨ ev = UI.Blur →
  UI.handle validate true title c ev w = Cell.save validate c w.
Proof.
  intros Hc Hev. unfold UI.handle, UI.childNode. rewrite Hc.
  by destruct Hev as [-> | ->].
Qed.

Lemma handle_click validate title c w :
  Cell.c_editing c = false →
  UI.handle validate true title c UI.Click w = Cell.toggleEdit c w.
Proof. intros Hc. unfold UI.handle, UI.childNode. by rewrite Hc. Qed.

Lemma validate_row_accepts (mounted : list string) (store : gmap string value) :
  Forall (λ f, field_ok store f = true) mounted →
  validate_row mounted store = inl (filter (λ kv, kv.1 ∈ mounted) store).
Proof.
  intros Hall. unfold validate_row.
  assert (filter (λ name, field_ok store name = false) mounted = []) as ->;
    [|done].
  induction Hall as [|f rest Hf _ IH]; [done|].
  rewrite filter_cons_False; [done|]. by rewrite Hf.
Qed.


Lemma lookup_mounted_values (mounted : list string) (store : gmap string value) f :
  filter (λ kv : string * value, kv.1 ∈ mounted) store !! f
  = if decide (f ∈ mounted) then store !! f else None.
Proof.
  rewrite map_lookup_filter. destruct (store !! f) as [v|]; simpl.
  - by repeat case_decide.
  - by case_decide.
Qed.

(** The whole edit of a cell: click, type a non-empty text, commit by
    Enter or by leaving the input, while the other cells of the row that
    are in edit mode ([siblings]) hold valid inputs.  The cell is back in
    view mode and, in the row it belongs to, the column's field holds the
    typed text as a string, the fields of the siblings hold their current
    inputs, and the remaining fields are as before; every other row is
    untouched. *)
Theorem edit_commits_typed_text (dataIndex title : string)
    (siblings : list string) (i : nat) (s : string) (commit : UI.event)
    (w : Cell.world) (record : gmap string value) :
  Cell.editing w = false →
  Cell.dataSource w !! i = Some record →
  (∀ (j : nat) other, (j < i)%nat → Cell.dataSource w !! j = Some other →
     key_of other ≠ key_of record) →
  dataIndex ≠ "key" → "key" ∉ siblings → dataIndex ∉ siblings →
  Forall (λ f, field_ok (Cell.fields w) f = true) siblings →
  s ≠ EmptyString →
  commit = UI.PressEnter ∨ commit = UI.Blur →
  let w' := UI.interact (validate_row (dataIndex :: siblings)) true dataIndex
              title i [UI.Click; UI.Typing s; commit] w in
  Cell.editing w' = false
  ∧ ∃ merged,
      Cell.dataSource w' = <[i := merged]> (Cell.dataSource w)
      ∧ merged !! dataIndex = Some (VStr s)
      ∧ (∀ f, f ∈ siblings → merged !! f = Cell.fields w !! f)
      ∧ (∀ f, f ≠ dataIndex → f ∉ siblings → merged !! f = record !! f)
      ∧ Cell.trace w'
        = Cell.trace w
          ++ [Cell.SetEditing true;
              Cell.SetFieldsValue dataIndex (record !! dataIndex);
              Cell.SetEditing false;
              Cell.SetFieldsValue dataIndex (record !! dataIndex);
              Cell.HandleSave merged].
Proof.
  intros Hview Hrec Hfirst Hkey Hksib Hdsib Hsib Hs Hcommit.
  destruct w as [ed flds ds tr]. simpl in Hview, Hrec, Hfirst, Hsib. subst ed.
  rewrite (interact_cons _ _ _ _ _ _ _ _ record) by done.
  rewrite handle_click, run_toggleEdit by done. simpl. rewrite Hrec.
  rewrite handle_commit by done.
  set (store := <[dataIndex := VStr s]>
                  (partial_alter (λ _, record !! dataIndex) dataIndex flds)).
  assert (∀ f, f ≠ dataIndex → store !! f = flds !! f) as Hother.
  { intros f Hf. unfold store.
    by rewrite lookup_insert_ne, lookup_partial_alter_ne. }
  rewrite (run_save_accepted _ _ _
             (filter (λ kv, kv.1 ∈ dataIndex :: siblings) store)).
  2:{ simpl. apply validate_row_accepts. constructor.
      - unfold field_ok, store. rewrite lookup_insert_eq.
        apply bool_decide_eq_true. by intros [= ->].
      - rewrite Forall_forall in Hsib. apply Forall_forall. intros f Hf.
        unfold field_ok. rewrite Hother; [by apply Hsib|].
        by intros ->. }
  simpl. split; [done|].
  set (merged := spread (Some record)
                   (filter (λ kv, kv.1 ∈ dataIndex :: siblings) store)).
  assert (∀ f, merged !! f
               = if decide (f ∈ dataIndex :: siblings)
                 then match store !! f with
                      | Some v => Some v
                      | None => record !! f
                      end
                 else record !! f) as Hmerged.
  { intros f. unfold merged. rewrite spread_lookup, lookup_mounted_values.
    by case_decide. }
  exists merged. split_and!.
  - assert (key_of merged = key_of record) as Hkm.
    { unfold key_of. rewrite Hmerged, decide_False; [done|].
      intros [?|?]%elem_of_cons; done. }
    rewrite (handleSave_found merged ds i record); [|done|done|].
    + f_equal. unfold merged, spread. simpl.
      by rewrite <- (assoc_L (∪)), (idemp_L (∪)).
    + intros j other Hj Hother'. rewrite Hkm. by eapply Hfirst.
  - rewrite Hmerged, decide_True by apply list_elem_of_here.
    unfold store. by rewrite lookup_insert_eq.
  - intros f Hf. rewrite Hmerged, decide_True by by apply list_elem_of_further.
    rewrite Hother by (by intros ->).
    rewrite Forall_forall in Hsib. specialize (Hsib f Hf).
    unfold field_ok in Hsib. by destruct (flds !! f).
  - intros f Hf1 Hf2. rewrite Hmerged, decide_False; [done|].
    intros [?|?]%elem_of_cons; done.
  - by rewrite <- !(assoc_L (++)).
Qed.

Lemma edit_commits_typed_text_witness :
  let w := Cell.World false {[ "price" := VStr "7" ]} initialDataSource [] in
  let record := initialDataSource !!! 0%nat in
  let w' := UI.interact (validate_row ["quantity"; "price"]) true "quantity"
              "Quantity" 0 [UI.Click; UI.Typing "5"; UI.PressEnter] w in
  Cell.editing w' = false
  ∧ ∃ merged,
      Cell.dataSource w' = <[0%nat := merged]> (Cell.dataSource w)
      ∧ merged !! "quantity" = Some (VStr "5")
      ∧ (∀ f, f ∈ ["price"] → merged !! f = Cell.fields w !! f)
      ∧ (∀ f, f ≠ "quantity" → f ∉ ["price"] → merged !! f = record !! f)
      ∧ Cell.trace w'
        = Cell.trace w
          ++ [Cell.SetEditing true;
              Cell.SetFieldsValue "quantity" (record !! "quantity");
              Cell.SetEditing false;
              Cell.SetFieldsValue "quantity" (record !! "quantity");
              Cell.HandleSave merged].
Proof.
  intros w record.
  apply (edit_commits_typed_text "quantity" "Quantity" ["price"] 0 "5"
           UI.PressEnter w record).
  - reflexivity.
  - reflexivity.
  - intros j other Hj. lia.
  - by_compute.
  - by_compute.
  - by_compute.
  - by_compute.
  - by_compute.
  - by left.
Defined.

(** Opening a cell and committing without typing, when the record has a
    non-empty value for the column and every other cell of the row that
    is in edit mode holds the record's own non-empty value: the cell is
    back in view mode and the row sequence is exactly as before. *)
Theorem commit_without_change_is_noop (dataIndex title : string)
    (siblings : list string) (i : nat) (commit : UI.event) (w : Cell.world)
    (record : gmap string value) (v : value) :
  Cell.editing w = false →
  Cell.dataSource w !! i = Some record →
  (∀ (j : nat) other, (j < i)%nat → Cell.dataSource w !! j = Some other →
     key_of other ≠ key_of record) →
  record !! dataIndex = Some v →
  v ≠ VStr EmptyString →
  Forall (λ f, field_ok (Cell.fields w) f = true
               ∧ Cell.fields w !! f = record !! f) siblings →
  commit = UI.PressEnter ∨ commit = UI.Blur →
  let w' := UI.interact (validate_row (dataIndex :: siblings)) true dataIndex
              title i [UI.Click; commit] w in
  Cell.editing w' = false ∧ Cell.dataSource w' = Cell.dataSource w.
Proof.
  intros Hview Hrec Hfirst Hv Hne Hsib Hcommit.
  destruct w as [ed flds ds tr]. simpl in Hview, Hrec, Hfirst, Hsib. subst ed.
  rewrite (interact_cons _ _ _ _ _ _ _ _ record) by done.
  rewrite handle_click, run_toggleEdit by done. simpl. rewrite Hrec.
  rewrite handle_commit by done.
  set (store := partial_alter (λ _, record !! dataIndex) dataIndex flds).
  assert (∀ f, f ∈ dataIndex :: siblings →
            store !! f = record !! f ∧ field_ok store f = true) as Hstore.
  { intros f Hf. destruct (decide (f = dataIndex)) as [->|Hfd].
    - unfold field_ok, store. rewrite lookup_partial_alter_eq, Hv.
      split; [done|]. by apply bool_decide_eq_true.
    - apply elem_of_cons in Hf as [?|Hf]; [done|].
      rewrite Forall_forall in Hsib. destruct (Hsib f Hf) as [Hok Heq].
      unfold field_ok, store in *.
      by rewrite lookup_partial_alter_ne. }
  rewrite (run_save_accepted _ _ _
             (filter (λ kv, kv.1 ∈ dataIndex :: siblings) store)).
  2:{ simpl. apply validate_row_accepts, Forall_forall.
      intros f Hf. by apply Hstore. }
  simpl. split; [done|].
  assert (spread (Some record)
            (filter (λ kv, kv.1 ∈ dataIndex :: siblings) store) = record) as ->.
  { apply map_eq. intros f. rewrite spread_lookup, lookup_mounted_values.
    case_decide as Hf; [|done].
    destruct (Hstore f Hf) as [-> _]. by destruct (record !! f). }
  rewrite (handleSave_found record ds i record Hrec eq_refl Hfirst), spread_self.
  by apply list_insert_id.
Qed.

Lemma commit_without_change_is_noop_witness :
  let w := Cell.World false ∅ initialDataSource [] in
  let w' := UI.interact (validate_row ["quantity"]) true "quantity"
              "Quantity" 1 [UI.Click; UI.Blur] w in
  Cell.editing w' = false ∧ Cell.dataSource w' = Cell.dataSource w.
Proof.
  intros w.
  apply (commit_without_change_is_noop "quantity" "Quantity" [] 1 UI.Blur w
           (initialDataSource !!! 1%nat) (VNum 3)).
  - reflexivity.
  - reflexivity.
  - intros [|j] other Hj Hother; [|lia].
    injection Hother as <-. vm_compute. discriminate.
  - by_compute.
  - discriminate.
  - constructor.
  - by right.
Defined.


